(** * COT [xml_file.py]: ordered editing of an XML element tree

    A shallow embedding of the class [XML] of [src/COT/xml_file.py]
    (lookup of children, ordered insertion, find-or-create update and
    re-indentation), with the properties of its specification.

    Conventions of the embedding.
    - An [xml.etree.ElementTree.Element] is a value of type [Element]:
      tag, attribute dictionary, text, tail and the list of children.
      Element tags are strings (no comments or processing instructions).
    - A reference to a child of the parent is its position in the
      parent's list of children: lookups return positions together
      with the element found there, and in-place mutation of a child is
      an update of the list at that position.
    - The argument of [parent.findall] is a path of ElementPath.
      [findall] is its result for a plain tag name, which [plain_tag]
      recognises: the children whose tag equals the name, in document
      order.  [ElementPath_findall] reads the argument as a path; the
      statements that depend on which children a lookup selects are
      made of the lookups by path, for plain tags.
    - The log holds the records emitted at WARNING level; DEBUG
      diagnostics and the ERROR record of [get_ns]/[strip_ns] on a name
      without a namespace prefix are outside the model. *)

From Stdlib Require Import ZArith String Ascii List Sorted Lia.
From stdpp Require Import gmap strings list fin_maps.

Local Open Scope string_scope.
Local Open Scope list_scope.
Local Open Scope Z_scope.
Local Open Scope nat_scope.

(** ** Data model *)

#[local] Unset Elimination Schemes.
Inductive Element := mkElement {
  tag : string;
  attrib : gmap string string;
  text : option string;
  tail : option string;
  children : list Element
}.
#[local] Set Elimination Schemes.

(** [ET.Element(tag)]: a fresh element without attributes, text, tail
    or children. *)
Definition new_Element (t : string) : Element :=
  mkElement t ∅ None None [].

Definition set_text (e : Element) (s : option string) : Element :=
  mkElement (tag e) (attrib e) s (tail e) (children e).

Definition set_tail (e : Element) (s : option string) : Element :=
  mkElement (tag e) (attrib e) (text e) s (children e).

Definition set_attrib (e : Element) (m : gmap string string) : Element :=
  mkElement (tag e) m (text e) (tail e) (children e).

Definition set_children (e : Element) (cs : list Element) : Element :=
  mkElement (tag e) (attrib e) (text e) (tail e) cs.

(** [element.set(key, value)] *)
Definition Element_set (e : Element) (key value : string) : Element :=
  set_attrib e (<[key := value]> (attrib e)).

(** Induction over the tree, with the children as a list. *)
Section Element_ind.
Variable P : Element → Prop.
Hypothesis Hnode : ∀ tg at_ tx tl ch,
  Forall P ch → P (mkElement tg at_ tx tl ch).

Fixpoint Element_tree_ind (e : Element) : P e :=
  match e with
  | mkElement tg at_ tx tl ch =>
      Hnode tg at_ tx tl ch
        ((fix go (l : list Element) : Forall P l :=
            match l with
            | [] => @List.Forall_nil _ P
            | x :: l' => @List.Forall_cons _ P x l' (Element_tree_ind x) (go l')
            end) ch)
  end.
End Element_ind.

(** Python truthiness of an optional list argument: [None] and the
    empty list are both false. *)
Definition truthy {A} (o : option (list A)) : bool :=
  match o with
  | Some (_ :: _) => true
  | _ => false
  end.

(** ** Namespace utilities *)

(** The characters of [s] before its first newline: the most a run
    of the wildcard can cover (it matches anything but a newline). *)
Fixpoint line_prefix (s : string) : string :=
  match s with
  | EmptyString => EmptyString
  | String c s' =>
      if Ascii.eqb c "010"%char then EmptyString else String c (line_prefix s')
  end.

(** Position of the last closing brace of [s], if there is one. *)
Fixpoint last_rbrace (s : string) : option nat :=
  match s with
  | EmptyString => None
  | String c s' =>
      match last_rbrace s' with
      | Some i => Some (S i)
      | None => if Ascii.eqb c "}"%char then Some 0 else None
      end
  end.

(** The regular expression of [get_ns], matched at the start of the
    text: an opening brace, a greedy run of characters other than a
    newline (group 1), a closing brace.  Being greedy, the run extends
    to the last closing brace of the first line. *)
Definition match_ns (text_ : string) : option string :=
  match text_ with
  | String "{"%char rest =>
      let seg := line_prefix rest in
      match last_rbrace seg with
      | Some i => Some (substring 0 i seg)
      | None => None
      end
  | _ => None
  end.

(** [XML.get_ns] *)
Definition get_ns (text_ : string) : string :=
  match match_ns text_ with
  | None => ""
  | Some ns => ns
  end.

(** [XML.strip_ns]: what follows the last closing brace on the first
    line when the text starts with a brace-delimited prefix, and the
    text unchanged otherwise. *)
Definition strip_ns (text_ : string) : string :=
  match text_ with
  | String "{"%char rest =>
      let seg := line_prefix rest in
      match last_rbrace seg with
      | Some i => substring (S i) (String.length seg - S i) seg
      | None => text_
      end
  | _ => text_
  end.

(** ** Lookup *)

(** The [tag] argument of the lookups: one tag (a [str]) or an
    iterable of tags. *)
Inductive TagArg :=
  | OneTag (t : string)
  | ManyTags (ts : list string).

Definition tags_of (t : TagArg) : list string :=
  match t with
  | OneTag t => [t]
  | ManyTags ts => ts
  end.

(** The children of [parent], each with its position (its identity as
    a child of [parent]). *)
Definition child_refs (parent : Element) : list (nat * Element) :=
  imap pair (children parent).

(** [parent.findall(t)] for a plain tag name [t] (see [plain_tag] and
    [ElementPath_findall] below). *)
Definition findall (parent : Element) (t : string) : list (nat * Element) :=
  List.filter (fun r => String.eqb (tag (snd r)) t) (child_refs parent).

(** The inner loop of [find_all_children] over the keys of [attrib]:
    [found] stays true when no key differs.  [e.get(key, None)] is the
    lookup in the element's attribute dictionary. *)
Definition attrib_found (e : Element) (attrib_ : gmap string string) : bool :=
  forallb (fun kv => bool_decide (attrib e !! fst kv = Some (snd kv)))
          (map_to_list attrib_).

(** Python truthiness of the optional dictionary [attrib]. *)
Definition truthy_dict (o : option (gmap string string)) : bool :=
  match o with
  | Some m => negb (bool_decide (m = ∅))
  | None => false
  end.

Definition child_found (attrib_ : option (gmap string string))
    (e : Element) : bool :=
  if truthy_dict attrib_ then attrib_found e (default ∅ attrib_) else true.

(** [XML.find_all_children] *)
Definition find_all_children (parent : Element) (tag_ : TagArg)
    (attrib_ : option (gmap string string)) : list (nat * Element) :=
  let elements :=
    match tag_ with
    | OneTag t => findall parent t
    | ManyTags ts =>
        fold_left (fun elements t => elements ++ findall parent t) ts []
    end in
  List.filter (fun r => child_found attrib_ (snd r)) elements.

Inductive Exception :=
  | LookupError   (* several children match a unique-child query *)
  | KeyError      (* no child matches a required unique-child query *)
  | ValueError.   (* [list.index] of a value that is not in the list *)

(** [XML.find_child]: [inl] is a raised exception, [inr None] the
    result [None]. *)
Definition find_child (parent : Element) (tag_ : TagArg)
    (attrib_ : option (gmap string string)) (required : bool)
    : Exception + option (nat * Element) :=
  let matches := find_all_children parent tag_ attrib_ in
  if 1 <? length matches then inl LookupError
  else if length matches =? 0 then
    if required then inl KeyError else inr None
  else inr (head matches).

(** ** Mutation: the parent under edit and the log *)

Inductive LogRecord :=
  | WarnNewChild (child_tag : string)
      (* New child is not in the list of expected children *)
  | WarnExistingChild (child_tag : string).
      (* Existing child element is not in expected list of children *)

Record Store := mkStore {
  st_parent : Element;
  st_log : list LogRecord
}.

(** Computations that read and mutate the store and may raise. *)
Definition M (A : Type) : Type := Store → (Exception + A) * Store.

Definition ret {A} (a : A) : M A := fun s => (inr a, s).

Definition raise {A} (e : Exception) : M A := fun s => (inl e, s).

Definition bind {A B} (m : M A) (f : A → M B) : M B :=
  fun s =>
    match m s with
    | (inl e, s') => (inl e, s')
    | (inr a, s') => f a s'
    end.

Notation "'do' x <- m ; k" := (bind m (fun x => k))
  (at level 10, x name, m at level 100, k at level 200,
   format "'[v' 'do'  x  <-  m ; '/' k ']'").

Definition when (b : bool) (m : M unit) : M unit :=
  if b then m else ret tt.

Definition get_parent : M Element := fun s => (inr (st_parent s), s).

Definition put_children (cs : list Element) : M unit :=
  fun s => (inr tt, mkStore (set_children (st_parent s) cs) (st_log s)).

Definition logger_warning (r : LogRecord) : M unit :=
  fun s => (inr tt, mkStore (st_parent s) (st_log s ++ [r])).

(** [parent.append(x)]; the result is the position of [x]. *)
Definition parent_append (x : Element) : M nat :=
  do parent <- get_parent;
  do _ <- put_children (children parent ++ [x]);
  ret (length (children parent)).

(** [parent.insert(i, x)] for [0 <= i]; the result is the position of
    [x] (a position past the end inserts at the end). *)
Definition parent_insert (i : nat) (x : Element) : M nat :=
  do parent <- get_parent;
  do _ <- put_children
            (take i (children parent) ++ x :: drop i (children parent));
  ret (Nat.min i (length (children parent))).

(** ** Ordered insertion *)

(** [x in l] *)
Definition mem (x : string) (l : list string) : bool :=
  existsb (String.eqb x) l.

(** The list held by an optional list argument that is known to be
    true (used after a [truthy] test only). *)
Definition olist (o : option (list string)) : list string :=
  default [] o.

(** [l.index(x)]: the first position of [x] in [l], or no position
    (where Python raises [ValueError]). *)
Fixpoint index (l : list string) (x : string) : option nat :=
  match l with
  | [] => None
  | y :: l' => if String.eqb y x then Some 0 else S <$> index l' x
  end.

(** [known_namespaces and (XML.get_ns(t) in known_namespaces)] *)
Definition in_known_namespace (known_namespaces : option (list string))
    (t : string) : bool :=
  truthy known_namespaces && mem (get_ns t) (olist known_namespaces).

(** The [for child in list(parent)] loop of [add_child], from the
    child at position [i] on: the final [i] and [found_position]. *)
Fixpoint scan_children (ordering : list string)
    (known_namespaces : option (list string)) (new_index : nat)
    (cs : list Element) (i : nat) : M (nat * bool) :=
  match cs with
  | [] => ret (i, false)
  | child :: rest =>
      match index ordering (tag child) with
      | Some k =>
          if new_index <? k then ret (i, true)
          else scan_children ordering known_namespaces new_index rest (S i)
      | None =>
          do _ <- when (in_known_namespace known_namespaces (tag child))
                       (logger_warning (WarnExistingChild (tag child)));
          ret (i, true)
      end
  end.

(** [XML.add_child].  The Python method returns nothing; the model
    returns the position at which [new_child] now stands, which is the
    reference the caller keeps to it. *)
Definition add_child (new_child : Element)
    (ordering known_namespaces : option (list string)) : M nat :=
  do ordering <-
    (if truthy ordering && negb (mem (tag new_child) (olist ordering)) then
       do _ <- when (in_known_namespace known_namespaces (tag new_child))
                    (logger_warning (WarnNewChild (tag new_child)));
       ret None
     else ret ordering);
  if negb (truthy ordering) then parent_append new_child
  else
    do new_index <-
      (match index (olist ordering) (tag new_child) with
       | Some n => ret n
       | None => raise ValueError
       end);
    do parent <- get_parent;
    do r <- scan_children (olist ordering) known_namespaces new_index
              (children parent) 0;
    if snd r then parent_insert (fst r) new_child
    else parent_append new_child.

(** ** Find-or-create update *)

(** In-place update of the child at position [i]. *)
Definition update_child (i : nat) (f : Element → Element) : M unit :=
  do parent <- get_parent;
  put_children (alter f i (children parent)).

(** [for a in attrib: element.set(a, attrib[a])] *)
Definition set_all (attrib_ : gmap string string) (e : Element) : Element :=
  fold_left (fun e kv => Element_set e (fst kv) (snd kv))
            (map_to_list attrib_) e.

(** [XML.set_or_make_child]; the result is the position of the new or
    updated child. *)
Definition set_or_make_child (tag_ : string) (text_ : option string)
    (attrib_ : option (gmap string string))
    (ordering known_namespaces : option (list string)) : M nat :=
  let attrib_ := default ∅ attrib_ in
  do parent <- get_parent;
  do found <-
    (match find_child parent (OneTag tag_) (Some attrib_) false with
     | inl e => raise e
     | inr r => ret r
     end);
  do element <-
    (match found with
     | None => add_child (new_Element tag_) ordering known_namespaces
     | Some r => ret (fst r)
     end);
  do _ <-
    (match text_ with
     | Some t => update_child element (fun e => set_text e (Some t))
     | None => ret tt
     end);
  do _ <- update_child element (set_all attrib_);
  ret element.

(** ** [parent.findall(path)]: the paths of ElementPath

    The argument of [parent.findall] is a path of ElementPath; a tag
    name is the path of one step that selects, among the children,
    those whose tag is equal to the name.  The lookups of this class
    hand their tag to [findall] as it is, so that a tag which holds
    path syntax is read as a path.

    [plain_tag] recognises the names that ElementPath reads as one
    name to compare for equality, in its tokenizer and in the
    accelerated [Element.findall] alike: a local name, or a namespace
    between braces followed by a local name.  The local name is not
    empty, does not begin with a dot, and is made of printable ASCII
    characters other than the slash, the square brackets, the
    parentheses, the at sign, the equals sign, the exclamation mark,
    the colon, the star, the braces and the two quotes.  The namespace
    is not empty, holds no closing brace and is not the star. *)

Definition path_syntax : list ascii :=
  list_ascii_of_string "/[]()@=!:{}'" ++ ["*"%char; ascii_of_nat 34].

Definition name_char (c : ascii) : bool :=
  (33 <=? nat_of_ascii c) && (nat_of_ascii c <=? 126) &&
  negb (existsb (Ascii.eqb c) path_syntax).

Definition plain_local (name : string) : bool :=
  match name with
  | EmptyString => false
  | String c _ =>
      negb (Ascii.eqb c ".") && forallb name_char (list_ascii_of_string name)
  end.

(** The text before the first closing brace, and the text after it. *)
Fixpoint split_brace (s : string) : option (string * string) :=
  match s with
  | EmptyString => None
  | String c s' =>
      if Ascii.eqb c "}" then Some (EmptyString, s')
      else match split_brace s' with
           | Some (ns, name) => Some (String c ns, name)
           | None => None
           end
  end.

Definition plain_tag (t : string) : bool :=
  match t with
  | String "{" rest =>
      match split_brace rest with
      | Some (ns, name) =>
          negb (String.eqb ns "") && negb (String.eqb ns "*") &&
          plain_local name
      | None => false
      end
  | _ => plain_local t
  end.

(** The test that a path of one step applies to each child of the
    parent: equality with a plain tag; every child for the star; and,
    for empty braces followed by a local name, equality with the local
    name alone (Python 3.8 and later).  [None]: a path outside this
    fragment (several steps, predicates, the other wildcards, the
    parent itself, and the paths that ElementPath refuses with an
    exception), of which the model says nothing. *)
Definition ElementPath_child (path : string) : option (Element → bool) :=
  if plain_tag path then Some (fun e => String.eqb (tag e) path)
  else if String.eqb path "*" then Some (fun _ => true)
  else match path with
       | String "{" (String "}" name) =>
           if plain_local name then Some (fun e => String.eqb (tag e) name)
           else None
       | _ => None
       end.

(** [parent.findall(path)] *)
Definition ElementPath_findall (parent : Element) (path : string)
    : option (list (nat * Element)) :=
  match ElementPath_child path with
  | Some select =>
      Some (List.filter (fun r => select (snd r)) (child_refs parent))
  | None => None
  end.

(** [XML.find_all_children], its tags read as paths. *)
Definition find_all_children_path (parent : Element) (tag_ : TagArg)
    (attrib_ : option (gmap string string))
    : option (list (nat * Element)) :=
  let elements :=
    match tag_ with
    | OneTag t => ElementPath_findall parent t
    | ManyTags ts =>
        fold_left
          (fun elements t =>
             match elements, ElementPath_findall parent t with
             | Some elements, Some found => Some (elements ++ found)
             | _, _ => None
             end)
          ts (Some [])
    end in
  match elements with
  | Some elements =>
      Some (List.filter (fun r => child_found attrib_ (snd r)) elements)
  | None => None
  end.

(** What [XML.find_child] makes of the list of matches. *)
Definition unique_match (matches : list (nat * Element)) (required : bool)
    : Exception + option (nat * Element) :=
  if 1 <? length matches then inl LookupError
  else if length matches =? 0 then
    if required then inl KeyError else inr None
  else inr (head matches).

(** [XML.find_child], its tags read as paths. *)
Definition find_child_path (parent : Element) (tag_ : TagArg)
    (attrib_ : option (gmap string string)) (required : bool)
    : option (Exception + option (nat * Element)) :=
  match find_all_children_path parent tag_ attrib_ with
  | Some matches => Some (unique_match matches required)
  | None => None
  end.

(** [XML.set_or_make_child] when [parent.findall(tag)] applies the test
    [select] to the children.  The element created is [ET.Element(tag)]
    whatever the tag holds. *)
Definition set_or_make_child_by (select : Element → bool) (tag_ : string)
    (text_ : option string) (attrib_ : option (gmap string string))
    (ordering known_namespaces : option (list string)) : M nat :=
  let attrib_ := default ∅ attrib_ in
  do parent <- get_parent;
  do found <-
    (match unique_match
             (List.filter (fun r => child_found (Some attrib_) (snd r))
                (List.filter (fun r => select (snd r)) (child_refs parent)))
             false with
     | inl e => raise e
     | inr r => ret r
     end);
  do element <-
    (match found with
     | None => add_child (new_Element tag_) ordering known_namespaces
     | Some r => ret (fst r)
     end);
  do _ <-
    (match text_ with
     | Some t => update_child element (fun e => set_text e (Some t))
     | None => ret tt
     end);
  do _ <- update_child element (set_all attrib_);
  ret element.

(** [XML.set_or_make_child], its tag read as a path. *)
Definition set_or_make_child_path (tag_ : string) (text_ : option string)
    (attrib_ : option (gmap string string))
    (ordering known_namespaces : option (list string)) : option (M nat) :=
  match ElementPath_child tag_ with
  | Some select =>
      Some (set_or_make_child_by select tag_ text_ attrib_ ordering
              known_namespaces)
  | None => None
  end.

(** ** Re-indentation *)

(** [" " * n]: empty for [n <= 0]. *)
Definition spaces (n : Z) : string :=
  string_of_list_ascii (repeat " "%char (Z.to_nat n)).

(** The string of one newline character. *)
Definition newline : string := String "010"%char EmptyString.

(** A newline followed by [" " * depth]. *)
Definition indent (depth : Z) : string :=
  String "010"%char (spaces depth).

(** [last.tail = s], where [last] is the last element of the loop. *)
Fixpoint set_last_tail (cs : list Element) (s : option string)
    : list Element :=
  match cs with
  | [] => []
  | [x] => [set_tail x s]
  | x :: rest => x :: set_last_tail rest s
  end.

(** [XML.xml_reindent] on an element whose [tail] field currently holds
    [tl]: the loop body [elem.tail = ...; self.xml_reindent(elem, depth)]
    is the recursive call with that tail.  The result is the element
    after the in-place update of its subtree. *)
Fixpoint reindent_from (tl : option string) (parent : Element)
    (depth : Z) {struct parent} : Element :=
  match parent with
  | mkElement tg at_ tx _ ch =>
      let depth := (depth + 2)%Z in
      let ch1 :=
        List.map (fun elem => reindent_from (Some (indent depth)) elem depth)
                 ch in
      match ch1 with
      | _ :: _ =>
          (* last is not None *)
          let tx := Some (indent depth) in
          let depth := (depth - 2)%Z in
          let ch2 := set_last_tail ch1 (Some (indent depth)) in
          let tl := if (depth =? 0)%Z then Some newline else tl in
          mkElement tg at_ tx tl ch2
      | [] =>
          let tl := if (depth =? 0)%Z then Some newline else tl in
          mkElement tg at_ tx tl ch1
      end
  end.

Definition xml_reindent (parent : Element) (depth : Z) : Element :=
  reindent_from (tail parent) parent depth.

(** * Notions of the statements *)

(** ** Queries and insertion points *)

(** What the specification asks of a child for a query: its tag is the
    tag asked for and its attributes extend those of the query. *)
Definition matches_query (t : string)
    (attrib_ : option (gmap string string)) (e : Element) : Prop :=
  tag e = t ∧ default ∅ attrib_ ⊆ attrib e.


(** A parent used to exercise the statements: [<Envelope>] with the
    children [Info] and [DiskSection]. *)
Definition Envelope_example : Element :=
  mkElement "Envelope" ∅ None None
    [new_Element "Info"; new_Element "DiskSection"].

(** The loop goes on past [c]: its tag is found in [ordering], at a
    position that is not greater than [new_index]. *)
Definition scan_passes (ordering : list string) (new_index : nat)
    (c : Element) : Prop :=
  ∃ k, index ordering (tag c) = Some k ∧ k ≤ new_index.

(** The record logged when the loop stops at [c]. *)
Definition boundary_warning (ordering : list string)
    (known_namespaces : option (list string)) (c : Element)
    : list LogRecord :=
  match index ordering (tag c) with
  | Some _ => []
  | None =>
      if in_known_namespace known_namespaces (tag c)
      then [WarnExistingChild (tag c)] else []
  end.

Definition rest_warning (ordering : list string)
    (known_namespaces : option (list string)) (rest : list Element)
    : list LogRecord :=
  match rest with
  | [] => []
  | c :: _ => boundary_warning ordering known_namespaces c
  end.

(** [known_namespaces] is supplied and contains the namespace of the
    tag [t]. *)
Definition known_namespace (known_namespaces : option (list string))
    (t : string) : Prop :=
  ∃ l, known_namespaces = Some l ∧ get_ns t ∈ l.

(** ** A sequence of ordered insertions *)

(** The calls [add_child(parent, child, ordering, known_namespaces)]
    for the children of [inserts], in order, each with the
    [known_namespaces] of its call. *)
Fixpoint add_children (inserts : list (Element * option (list string)))
    (ordering : option (list string)) : M unit :=
  match inserts with
  | [] => ret tt
  | (child, known_namespaces) :: rest =>
      do _ <- add_child child ordering known_namespaces;
      add_children rest ordering
  end.

(** The index in the ordering of the tag of a child, when it has one. *)
Definition ordering_index (ordering : list string) (c : Element)
    : option nat :=
  index ordering (tag c).

(** The sorting key that the loop of [add_child] works with: a child
    whose tag is not in the ordering counts as greater than all that
    are. *)
Definition sort_key (ordering : list string) (c : Element) : nat :=
  default (length ordering) (ordering_index ordering c).

(** The children are sorted by key, and those of one index stand in
    the order in which they were inserted. *)
Definition stable_sorted (ordering : list string)
    (inserted cs : list Element) : Prop :=
  StronglySorted le (List.map (sort_key ordering) cs) ∧
  cs ≡ₚ inserted ∧
  ∀ k, filter (fun c => ordering_index ordering c = Some k) cs
       = filter (fun c => ordering_index ordering c = Some k) inserted.

(** [element.text = str(text)] when [text is not None]. *)
Definition text_update (text_ : option string) (e : Element) : Element :=
  match text_ with
  | Some t => set_text e (Some t)
  | None => e
  end.

(** The test by which [find_all_children] keeps a child, for one tag. *)
Definition child_selected (t : string)
    (attrib_ : option (gmap string string)) (e : Element) : bool :=
  String.eqb (tag e) t && child_found attrib_ e.

Definition refs_from (k : nat) (cs : list Element) : list (nat * Element) :=
  imap (fun j x => (k + j, x)) cs.

(** What [set_or_make_child] does to the element found or made. *)
Definition settle (text_ : option string) (attrib_ : gmap string string)
    (e : Element) : Element :=
  set_all attrib_ (text_update text_ e).

(** ** Content and indentation of a tree *)

(** What re-indentation must keep of a tree: the tags, the attributes,
    the children in their order, and the text of the elements without
    children.  The other text and every tail are erased. *)
Fixpoint skeleton (e : Element) : Element :=
  match e with
  | mkElement tg at_ tx _ ch =>
      mkElement tg at_ (match ch with [] => tx | _ :: _ => None end) None
                (List.map skeleton ch)
  end.

(** Space, tab, newline and carriage return. *)
Definition is_space (c : ascii) : bool :=
  Ascii.eqb c " "%char || Ascii.eqb c "009"%char ||
  Ascii.eqb c "010"%char || Ascii.eqb c "013"%char.

(** A text or tail that holds nothing but whitespace, or nothing. *)
Definition blank (o : option string) : bool :=
  match o with
  | None => true
  | Some s => forallb is_space (list_ascii_of_string s)
  end.

(** No mixed content: only whitespace stands between the children of
    an element, and after any element. *)
Fixpoint no_mixed_content (e : Element) : bool :=
  match e with
  | mkElement _ _ tx tl ch =>
      match ch with [] => true | _ :: _ => blank tx end
      && blank tl && forallb no_mixed_content ch
  end.

(** The tree with its whitespace-only texts and tails erased. *)
Fixpoint significant (e : Element) : Element :=
  match e with
  | mkElement tg at_ tx tl ch =>
      mkElement tg at_ (if blank tx then None else tx)
                (if blank tl then None else tl) (List.map significant ch)
  end.

(** A document with text in its leaves only. *)
Definition document_example : Element :=
  mkElement "Envelope" {["id" := "1"]} None None
    [mkElement "Info" ∅ (Some "some text") None [];
     mkElement "Section" ∅ (Some " ") (Some " ")
       [mkElement "Item" ∅ (Some "5") None []]].

(** The whitespace that stands before each child of an element: the
    text of the element before its first child, and before each other
    child the tail of the child before it. *)
Definition preceding_whitespace (e : Element) : list (option string) :=
  match children e with
  | [] => []
  | _ :: _ => text e :: List.map tail (removelast (children e))
  end.

(** The whitespace after the last child of an element, before its end
    tag. *)
Definition closing_whitespace (e : Element) : option string :=
  last (children e) ≫= tail.

Definition is_indent (depth : Z) (o : option string) : bool :=
  bool_decide (o = Some (indent depth)).

(** An element that stands at the indentation [depth] is indented:
    each of its children is preceded by a newline and [depth + 2]
    spaces, its end tag by a newline and [depth] spaces, and its
    children are indented likewise, two spaces deeper. *)
Fixpoint indented (depth : Z) (e : Element) : bool :=
  match e with
  | mkElement tg at_ tx tl ch =>
      match ch with
      | [] => true
      | _ :: _ =>
          forallb (is_indent (depth + 2))
                  (preceding_whitespace (mkElement tg at_ tx tl ch))
          && is_indent depth (closing_whitespace (mkElement tg at_ tx tl ch))
          && forallb (indented (depth + 2)%Z) ch
      end
  end.

(** * Further notions *)

(** ** Strings *)

(** [c in s] *)
Fixpoint has_char (c : ascii) (s : string) : bool :=
  match s with
  | EmptyString => false
  | String c' s' => Ascii.eqb c' c || has_char c s'
  end.

(** The qualified name [{uri}local]. *)
Definition qualified (uri local_ : string) : string :=
  String "{"%char (uri ++ String "}"%char local_)%string.

(** [s[n:]] and [s[:n]] for [0 <= n]. *)
Fixpoint slice_from (n : nat) (s : string) : string :=
  match n, s with
  | 0, _ => s
  | S n', String _ s' => slice_from n' s'
  | S _, EmptyString => EmptyString
  end.

Fixpoint slice_to (n : nat) (s : string) : string :=
  match n, s with
  | 0, _ => EmptyString
  | S n', String c s' => String c (slice_to n' s')
  | S _, EmptyString => EmptyString
  end.

(** The position of the last [c] in [s], if there is one. *)
Fixpoint rindex (c : ascii) (s : string) : option nat :=
  match s with
  | EmptyString => None
  | String c' s' =>
      match rindex c s' with
      | Some i => Some (S i)
      | None => if Ascii.eqb c' c then Some 0 else None
      end
  end.

(** [s.rfind(c)]: -1 when [c] is not in [s]. *)
Definition rfind (c : ascii) (s : string) : Z :=
  match rindex c s with
  | Some i => Z.of_nat i
  | None => (-1)%Z
  end.

(** ** [vmdktool.py]: paths

    [src/COT/helpers/vmdktool.py] is embedded with these conventions.
    - [os.path] is the POSIX one: the separator is the slash.
    - The external tool is an oracle, [helper_output], from the
      arguments of a run to its output, or to nothing when the run
      fails; the state is the list of the runs made.  [Helper], the
      base class, is not part of the sources: [call_helper] is taken
      to run the tool once and to raise when the run fails.
    - Records logged at INFO level are outside the model. *)

(** [os.path.basename(p)]: what follows the last slash. *)
Definition basename (p : string) : string :=
  let i := (rfind "/"%char p + 1)%Z in
  slice_from (Z.to_nat i) p.

(** [os.path.splitext(p)]: the extension starts at the last dot after
    the last slash, unless only dots stand between that slash and that
    dot (a leading dot does not start an extension). *)
Definition splitext (p : string) : string * string :=
  let sepIndex := rfind "/"%char p in
  let dotIndex := rfind "."%char p in
  if (sepIndex <? dotIndex)%Z then
    let filenameIndex := Z.to_nat (sepIndex + 1) in
    let before_dot :=
      slice_from filenameIndex (slice_to (Z.to_nat dotIndex) p) in
    if existsb (fun c => negb (Ascii.eqb c "."%char))
               (list_ascii_of_string before_dot)
    then (slice_to (Z.to_nat dotIndex) p, slice_from (Z.to_nat dotIndex) p)
    else (p, EmptyString)
  else (p, EmptyString).

Definition startswith_slash (s : string) : bool :=
  match s with
  | String c _ => Ascii.eqb c "/"%char
  | EmptyString => false
  end.

Fixpoint endswith_slash (s : string) : bool :=
  match s with
  | EmptyString => false
  | String c EmptyString => Ascii.eqb c "/"%char
  | String _ s' => endswith_slash s'
  end.

(** [os.path.join(a, b)] *)
Definition join (a b : string) : string :=
  if startswith_slash b then b
  else if String.eqb a "" || endswith_slash a then (a ++ b)%string
  else (a ++ String "/"%char b)%string.

(** ** [vmdktool.py]: the version in the output of the tool *)

(** A character of the class of digits and the dot. *)
Definition is_digit (c : ascii) : bool :=
  (48 <=? nat_of_ascii c) && (nat_of_ascii c <=? 57).

Definition is_version_char (c : ascii) : bool :=
  is_digit c || Ascii.eqb c "."%char.

(** The longest prefix of [s] made of characters that satisfy [p]: what
    a greedy repetition of the class takes. *)
Fixpoint take_chars (p : ascii → bool) (s : string) : string :=
  match s with
  | String c s' => if p c then String c (take_chars p s') else EmptyString
  | EmptyString => EmptyString
  end.

(** [s] without its prefix [pre], when it starts with it. *)
Fixpoint strip_prefix (pre s : string) : option string :=
  match pre, s with
  | EmptyString, _ => Some s
  | String a pre', String b s' =>
      if Ascii.eqb a b then strip_prefix pre' s' else None
  | String _ _, EmptyString => None
  end.

(** Group 1 of the search of the version pattern in [s]: the literal
    text "vmdktool version " followed by one or more digits and dots,
    at the leftmost position where it matches; [None] without a
    match. *)
Fixpoint search_version (s : string) : option string :=
  let here :=
    match strip_prefix "vmdktool version " s with
    | Some rest =>
        match take_chars is_version_char rest with
        | EmptyString => None
        | v => Some v
        end
    | None => None
    end in
  match here with
  | Some v => Some v
  | None =>
      match s with
      | String _ s' => search_version s'
      | EmptyString => None
      end
  end.

(** [s.split(".")] *)
Fixpoint split_dot (s : string) : list string :=
  match s with
  | EmptyString => [EmptyString]
  | String c s' =>
      if Ascii.eqb c "."%char then EmptyString :: split_dot s'
      else match split_dot s' with
           | part :: parts => String c part :: parts
           | [] => [String c EmptyString]
           end
  end.

(** [int(s)] for a string of digits. *)
Definition int (s : string) : nat :=
  fold_left (fun n c => 10 * n + (nat_of_ascii c - 48))
            (list_ascii_of_string s) 0.

Definition nonempty (s : string) : bool :=
  match s with
  | EmptyString => false
  | String _ _ => true
  end.

(** [StrictVersion(v).version] for a string [v] of digits and dots (as
    group 1 of the pattern is): two or three numbers separated by
    dots, the third being 0 when absent; [None] where [StrictVersion]
    raises [ValueError]. *)
Definition StrictVersion (v : string) : option (nat * nat * nat) :=
  match split_dot v with
  | [major; minor] =>
      if nonempty major && nonempty minor
      then Some (int major, int minor, 0) else None
  | [major; minor; patch] =>
      if nonempty major && nonempty minor && nonempty patch
      then Some (int major, int minor, int patch) else None
  | _ => None
  end.

(** ** [vmdktool.py]: the helper *)

Inductive HelperException :=
  | NotImplementedError
  | HelperError      (* what [call_helper] raises when the tool fails *)
  | AttributeError   (* [match.group] when [match] is [None] *)
  | InvalidVersion.  (* the [ValueError] of [StrictVersion] *)

(** Computations that invoke the external tool: the state is the list
    of the argument lists of the invocations so far. *)
Definition H (A : Type) : Type :=
  list (list string) → (HelperException + A) * list (list string).

Section VmdkTool.
(** The outcome of a run of the tool on given arguments: its output,
    or nothing when the run fails. *)
Variable helper_output : list string → option string.

(** [Helper.call_helper]: runs the tool, returns its output, raises
    when the run fails. *)
Definition call_helper (args : list string) : H string :=
  fun w =>
    (match helper_output args with
     | Some out => inr out
     | None => inl HelperError
     end, w ++ [args]).

(** [VmdkTool._get_version] *)
Definition _get_version : H (nat * nat * nat) :=
  fun w =>
    match call_helper ["-V"] w with
    | (inl e, w') => (inl e, w')
    | (inr output, w') =>
        match search_version output with
        | None => (inl AttributeError, w')
        | Some v =>
            match StrictVersion v with
            | Some version => (inr version, w')
            | None => (inl InvalidVersion, w')
            end
        end
    end.

(** [VmdkTool.convert_disk_image] *)
Definition convert_disk_image (file_path output_dir new_format : string)
    (new_subformat : option string) : H string :=
  fun w =>
    let file_name := basename file_path in
    let (file_string, file_extension) := splitext file_name in
    if String.eqb new_format "vmdk"
       && bool_decide (new_subformat = Some "streamOptimized") then
      let new_file_path := join output_dir (file_string ++ ".vmdk")%string in
      match call_helper ["-z9"; "-v"; new_file_path; file_path] w with
      | (inl e, w') => (inl e, w')
      | (inr _, w') => (inr new_file_path, w')
      end
    else (inl NotImplementedError, w).
End VmdkTool.

(** * Properties *)

(** ** Namespace utilities *)

Example get_ns_ovf :
  get_ns "{http://schemas.dmtf.org/ovf/envelope/1}Element"
  = "http://schemas.dmtf.org/ovf/envelope/1".
Proof. reflexivity. Qed.

Example strip_ns_ovf :
  strip_ns "{http://schemas.dmtf.org/ovf/envelope/1}Element" = "Element".
Proof. reflexivity. Qed.

Example get_ns_no_prefix : get_ns "Element" = "".
Proof. reflexivity. Qed.

(** ** Lookup *)

Lemma attrib_found_subseteq e (m : gmap string string) :
  attrib_found e m = true ↔ m ⊆ attrib e.
Proof.
  unfold attrib_found. rewrite forallb_forall, map_subseteq_spec. split.
  - intros H k v Hkv.
    specialize (H (k, v)). simpl in H.
    rewrite bool_decide_eq_true in H. apply H, list_elem_of_In.
    by apply fin_maps.elem_of_map_to_list.
  - intros H [k v] Hin. simpl. rewrite bool_decide_eq_true. apply H.
    by apply fin_maps.elem_of_map_to_list, list_elem_of_In.
Qed.

Lemma empty_subseteq_attrib (m : gmap string string) : (∅ : gmap string string) ⊆ m.
Proof. apply map_subseteq_spec. intros k v. by rewrite lookup_empty. Qed.

Lemma child_found_subseteq attrib_ e :
  child_found attrib_ e = true ↔ default ∅ attrib_ ⊆ attrib e.
Proof.
  unfold child_found, truthy_dict. destruct attrib_ as [m|]; simpl.
  - case_bool_decide as Hm; simpl.
    + subst m. split; [intros _; apply empty_subseteq_attrib | done].
    + apply attrib_found_subseteq.
  - split; [intros _; apply empty_subseteq_attrib | done].
Qed.

Lemma elem_of_child_refs parent i e :
  (i, e) ∈ child_refs parent ↔ children parent !! i = Some e.
Proof.
  unfold child_refs. rewrite elem_of_lookup_imap. split.
  - intros (j & y & [= -> ->] & H). done.
  - intros H. eauto.
Qed.

Lemma child_refs_lookup parent i r :
  child_refs parent !! i = Some r ↔
  ∃ e, children parent !! i = Some e ∧ r = (i, e).
Proof. unfold child_refs. apply list_lookup_imap_Some. Qed.

Lemma elem_of_findall parent t i e :
  (i, e) ∈ findall parent t ↔ children parent !! i = Some e ∧ tag e = t.
Proof.
  unfold findall. rewrite list_elem_of_In, filter_In, <- list_elem_of_In.
  rewrite elem_of_child_refs. simpl. by rewrite String.eqb_eq.
Qed.

Lemma fold_findall parent ts acc :
  fold_left (fun elements t => elements ++ findall parent t) ts acc
  = acc ++ flat_map (findall parent) ts.
Proof.
  revert acc. induction ts as [|t ts IH]; intros acc; simpl.
  - by rewrite app_nil_r.
  - by rewrite IH, app_assoc.
Qed.

Lemma filter_flat_map {A B} (p : B → bool) (f : A → list B) l :
  List.filter p (flat_map f l) = flat_map (fun x => List.filter p (f x)) l.
Proof.
  induction l as [|x l IH]; simpl; [done|].
  by rewrite List.filter_app, IH.
Qed.

(** The result of [find_all_children], tag by tag. *)
Lemma find_all_children_flat_map parent tag_ attrib_ :
  find_all_children parent tag_ attrib_
  = flat_map
      (fun t => List.filter (fun r => child_found attrib_ (snd r))
                            (findall parent t))
      (tags_of tag_).
Proof.
  unfold find_all_children. destruct tag_ as [t|ts]; simpl.
  - by rewrite app_nil_r.
  - rewrite fold_findall. simpl. apply filter_flat_map.
Qed.

Lemma elem_of_find_all_children parent tag_ attrib_ i e :
  (i, e) ∈ find_all_children parent tag_ attrib_ ↔
  children parent !! i = Some e ∧
  ∃ t, t ∈ tags_of tag_ ∧ matches_query t attrib_ e.
Proof.
  rewrite find_all_children_flat_map, list_elem_of_In, in_flat_map.
  unfold matches_query. split.
  - intros (t & Ht & Hin).
    apply filter_In in Hin as [Hin Hf]. simpl in Hf.
    apply list_elem_of_In, elem_of_findall in Hin as [Hi Htag].
    split; [done|]. exists t. rewrite list_elem_of_In.
    by rewrite <- child_found_subseteq.
  - intros (Hi & t & Ht & Htag & Hsub). exists t.
    split; [by apply list_elem_of_In|].
    apply filter_In. split.
    + by apply list_elem_of_In, elem_of_findall.
    + simpl. by apply child_found_subseteq.
Qed.




(** ** Plain tags: the lookup by path is the lookup by tag *)

Lemma ElementPath_findall_plain parent t :
  plain_tag t = true →
  ElementPath_findall parent t = Some (findall parent t).
Proof.
  intros Hplain. unfold ElementPath_findall, ElementPath_child.
  by rewrite Hplain.
Qed.

Lemma fold_ElementPath_findall_plain parent ts elements :
  forallb plain_tag ts = true →
  fold_left
    (fun elements t =>
       match elements, ElementPath_findall parent t with
       | Some elements, Some found => Some (elements ++ found)
       | _, _ => None
       end)
    ts (Some elements)
  = Some (fold_left (fun elements t => elements ++ findall parent t)
            ts elements).
Proof.
  revert elements. induction ts as [|t ts IH]; intros elements Hplain;
    [done|].
  cbn [forallb] in Hplain. apply andb_prop in Hplain as [Ht Hts].
  cbn [fold_left]. rewrite (ElementPath_findall_plain parent t Ht).
  by apply IH.
Qed.

Lemma find_all_children_path_plain parent tag_ attrib_ :
  forallb plain_tag (tags_of tag_) = true →
  find_all_children_path parent tag_ attrib_
  = Some (find_all_children parent tag_ attrib_).
Proof.
  intros Hplain. unfold find_all_children_path, find_all_children.
  destruct tag_ as [t|ts]; simpl in Hplain.
  - apply andb_prop in Hplain as [Ht _].
    by rewrite (ElementPath_findall_plain parent t Ht).
  - by rewrite (fold_ElementPath_findall_plain parent ts [] Hplain).
Qed.

Lemma find_child_path_plain parent tag_ attrib_ required :
  forallb plain_tag (tags_of tag_) = true →
  find_child_path parent tag_ attrib_ required
  = Some (find_child parent tag_ attrib_ required).
Proof.
  intros Hplain. unfold find_child_path.
  by rewrite (find_all_children_path_plain parent tag_ attrib_ Hplain).
Qed.

Lemma set_or_make_child_path_plain tag_ text_ attrib_ ordering
    known_namespaces :
  plain_tag tag_ = true →
  set_or_make_child_path tag_ text_ attrib_ ordering known_namespaces
  = Some (set_or_make_child tag_ text_ attrib_ ordering known_namespaces).
Proof.
  intros Hplain. unfold set_or_make_child_path, ElementPath_child.
  by rewrite Hplain.
Qed.

Lemma plain_tag_tags t : plain_tag t = true →
  forallb plain_tag (tags_of (OneTag t)) = true.
Proof. intros Ht. simpl. by rewrite Ht. Qed.

(** Names that are plain, and tags that ElementPath reads otherwise. *)
Lemma plain_tag_examples :
  plain_tag "Item" = true ∧
  plain_tag "{http://schemas.dmtf.org/ovf/envelope/1}VirtualSystem" = true ∧
  plain_tag "ovf.Item-1" = true ∧
  plain_tag "" = false ∧
  plain_tag "*" = false ∧
  plain_tag "." = false ∧
  plain_tag "a/b" = false ∧
  plain_tag "a:b" = false ∧
  plain_tag "Item[1]" = false ∧
  plain_tag "{}Item" = false ∧
  plain_tag "{*}Item" = false ∧
  plain_tag "{urn:ovf}*" = false.
Proof. repeat split. Qed.




(** [find_child] by the number of matches. *)
Lemma find_child_cases parent tag_ attrib_ required :
  find_child parent tag_ attrib_ required
  = match find_all_children parent tag_ attrib_ with
    | [] => if required then inl KeyError else inr None
    | [r] => inr (Some r)
    | _ :: _ :: _ => inl LookupError
    end.
Proof.
  unfold find_child.
  destruct (find_all_children parent tag_ attrib_) as [|r [|r' l]];
    reflexivity.
Qed.



(** ** Ordered insertion *)

Lemma mem_elem_of x l : mem x l = true ↔ x ∈ l.
Proof.
  unfold mem. rewrite existsb_exists, list_elem_of_In. split.
  - intros (y & Hy & Heq). apply String.eqb_eq in Heq. by subst.
  - intros H. exists x. by rewrite String.eqb_refl.
Qed.

Lemma index_Some_elem_of l x k : index l x = Some k → x ∈ l.
Proof.
  revert k. induction l as [|y l IH]; intros k; simpl; [done|].
  destruct (String.eqb_spec y x) as [->|Hne]; [left|].
  destruct (index l x) as [j|]; [|done]. intros _. right. by eapply IH.
Qed.

Lemma index_None l x : index l x = None ↔ x ∉ l.
Proof.
  induction l as [|y l IH]; simpl.
  - split; [intros _; apply not_elem_of_nil | done].
  - rewrite not_elem_of_cons.
    destruct (String.eqb_spec y x) as [->|Hne].
    + split; [done | intros [? _]; done].
    + destruct (index l x) as [j|] eqn:E; simpl.
      * split; [done|]. intros [_ H]. by apply IH in H.
      * split; [|done]. intros _. split; [congruence | by apply IH].
Qed.

Lemma index_is_Some l x : is_Some (index l x) ↔ x ∈ l.
Proof.
  destruct (index l x) as [k|] eqn:E.
  - split; [intros _; by eapply index_Some_elem_of | by eauto].
  - apply index_None in E. split; [by intros [? ?] | done].
Qed.

(** The position found is that of the first occurrence. *)
Lemma index_Some_lookup l x k :
  index l x = Some k ↔ l !! k = Some x ∧ ∀ j, j < k → l !! j ≠ Some x.
Proof.
  revert k. induction l as [|y l IH]; intros k; simpl.
  - split; [done | by intros [? _]].
  - destruct (String.eqb_spec y x) as [->|Hne].
    + split.
      * intros [= <-]. split; [done | intros j Hj; lia].
      * intros [Hk Hfirst]. destruct k as [|k]; [done|].
        exfalso. by apply (Hfirst 0); [lia|].
    + destruct k as [|k].
      * split; [by destruct (index l x) | intros [[= ->] _]; done].
      * transitivity (index l x = Some k).
        { destruct (index l x); simpl; split; congruence. }
        rewrite IH. simpl. split; intros [Hk Hfirst]; (split; [done|]).
        -- intros [|j] Hj; simpl; [congruence|]. apply Hfirst. lia.
        -- intros j Hj. apply (Hfirst (S j)). lia.
Qed.

(** [known_namespaces] is supplied and contains the namespace of [t]. *)
Lemma in_known_namespace_spec known_namespaces t :
  in_known_namespace known_namespaces t = true ↔
  ∃ l, known_namespaces = Some l ∧ get_ns t ∈ l.
Proof.
  unfold in_known_namespace, truthy, olist.
  destruct known_namespaces as [[|ns l]|]; simpl.
  - split; [done|]. intros (l & [= <-] & H). by apply not_elem_of_nil in H.
  - change (mem (get_ns t) (ns :: l) = true ↔
            ∃ l0, Some (ns :: l) = Some l0 ∧ get_ns t ∈ l0).
    rewrite mem_elem_of. split.
    + intros H. by exists (ns :: l).
    + by intros (l' & [= <-] & H).
  - split; [done|]. by intros (l & ? & _).
Qed.

Section add_child.
Variable ordering : list string.
Variable known_namespaces : option (list string).
Variable new_index : nat.

Lemma scan_children_passes pre rest i s :
  Forall (scan_passes ordering new_index) pre →
  scan_children ordering known_namespaces new_index (pre ++ rest) i s
  = scan_children ordering known_namespaces new_index rest
      (i + length pre) s.
Proof.
  intros Hpre. revert i.
  induction Hpre as [|c pre (k & Hk & Hle) _ IH]; intros i; simpl.
  - by rewrite Nat.add_0_r.
  - rewrite Hk. destruct (Nat.ltb_spec new_index k); [lia|].
    rewrite IH. f_equal. lia.
Qed.

Lemma scan_children_stops c rest i s :
  ¬ scan_passes ordering new_index c →
  scan_children ordering known_namespaces new_index (c :: rest) i s
  = (inr (i, true),
     mkStore (st_parent s)
             (st_log s ++ boundary_warning ordering known_namespaces c)).
Proof.
  intros Hc. unfold boundary_warning. simpl.
  destruct (index ordering (tag c)) as [k|] eqn:Hk.
  - destruct (Nat.ltb_spec new_index k) as [_|Hle].
    + unfold ret. rewrite app_nil_r. by destruct s.
    + exfalso. apply Hc. by exists k.
  - unfold bind, when, logger_warning, ret.
    destruct (in_known_namespace known_namespaces (tag c)); simpl; [done|].
    rewrite app_nil_r. by destruct s.
Qed.

(** The children split at the point where the loop stops. *)
Lemma scan_split cs :
  ∃ pre rest, cs = pre ++ rest ∧ Forall (scan_passes ordering new_index) pre ∧
    match rest with [] => True | c :: _ => ¬ scan_passes ordering new_index c end.
Proof.
  induction cs as [|c cs (pre & rest & -> & Hpre & Hrest)].
  - by exists [], [].
  - destruct (index ordering (tag c)) as [k|] eqn:Hk.
    + destruct (le_lt_dec k new_index) as [Hle|Hlt].
      * exists (c :: pre), rest. split; [done|]. split; [|done].
        constructor; [by exists k | done].
      * exists [], (c :: pre ++ rest). split; [done|]. split; [done|].
        intros (k' & Hk' & Hle). rewrite Hk in Hk'. injection Hk' as <-. lia.
    + exists [], (c :: pre ++ rest). split; [done|]. split; [done|].
      intros (k' & Hk' & _). congruence.
Qed.
End add_child.

(** [add_child] when the ordering is absent, empty, or does not list
    the tag of the new child: the child is appended. *)
Lemma add_child_append new_child ordering known_namespaces s :
  truthy ordering && mem (tag new_child) (olist ordering) = false →
  add_child new_child ordering known_namespaces s
  = (inr (length (children (st_parent s))),
     mkStore
       (set_children (st_parent s) (children (st_parent s) ++ [new_child]))
       (st_log s ++
        if truthy ordering && in_known_namespace known_namespaces (tag new_child)
        then [WarnNewChild (tag new_child)] else [])).
Proof.
  intros H. unfold add_child, bind.
  destruct (truthy ordering) eqn:Ht; simpl in *.
  - rewrite H. simpl. unfold when, logger_warning, ret, bind.
    destruct (in_known_namespace known_namespaces (tag new_child)); simpl.
    + reflexivity.
    + by rewrite app_nil_r.
  - unfold ret. rewrite Ht. simpl. by rewrite app_nil_r.
Qed.

(** [add_child] when the ordering lists the tag of the new child: the
    child is inserted where the loop stops. *)
Lemma add_child_ordered new_child ordering known_namespaces new_index
    pre rest s :
  index ordering (tag new_child) = Some new_index →
  children (st_parent s) = pre ++ rest →
  Forall (scan_passes ordering new_index) pre →
  match rest with
  | [] => True
  | c :: _ => ¬ scan_passes ordering new_index c
  end →
  add_child new_child (Some ordering) known_namespaces s
  = (inr (length pre),
     mkStore (set_children (st_parent s) (pre ++ new_child :: rest))
             (st_log s ++ rest_warning ordering known_namespaces rest)).
Proof.
  intros Hidx Hcs Hpre Hrest.
  assert (Hmem : mem (tag new_child) ordering = true)
    by (eapply mem_elem_of, index_Some_elem_of; eauto).
  assert (Htruthy : truthy (Some ordering) = true)
    by (destruct ordering; [discriminate Hmem | done]).
  unfold add_child, bind.
  change (olist (Some ordering)) with ordering.
  rewrite Htruthy, Hmem. cbn [andb negb]. unfold ret at 1.
  change (olist (Some ordering)) with ordering.
  rewrite Htruthy, Hidx. cbn [negb]. unfold ret at 1, get_parent at 1.
  rewrite Hcs, (scan_children_passes _ _ _ pre rest 0 s Hpre). simpl.
  destruct rest as [|c rest].
  - simpl. unfold parent_append, bind, get_parent, put_children, ret. simpl.
    rewrite Hcs, !app_nil_r. done.
  - rewrite scan_children_stops by done. simpl.
    unfold parent_insert, bind, get_parent, put_children, ret. simpl.
    rewrite Hcs, take_app_length, drop_app_length, length_app.
    do 2 f_equal. lia.
Qed.

(** C3: when the tag of the new child stands at [new_index] in the
    ordering and the tag of every existing child occurs in the
    ordering, [add_child] inserts the new child immediately before the
    first existing child whose index is strictly greater than
    [new_index], and at the end when there is no such child. *)
Theorem add_child_before_first_greater new_child ordering
    known_namespaces new_index s :
  index ordering (tag new_child) = Some new_index →
  Forall (fun c => tag c ∈ ordering) (children (st_parent s)) →
  ∃ pre post,
    children (st_parent s) = pre ++ post ∧
    Forall (fun c => ∃ k, index ordering (tag c) = Some k ∧ k ≤ new_index)
           pre ∧
    match post with
    | [] => True
    | c :: _ => ∃ k, index ordering (tag c) = Some k ∧ new_index < k
    end ∧
    add_child new_child (Some ordering) known_namespaces s
    = (inr (length pre),
       mkStore (set_children (st_parent s) (pre ++ new_child :: post))
               (st_log s)).
Proof.
  intros Hidx Hall.
  destruct (scan_split ordering new_index (children (st_parent s)))
    as (pre & post & Hcs & Hpre & Hpost).
  exists pre, post. split; [done|]. split; [done|].
  assert (Hhead : match post with
                  | [] => True
                  | c :: _ => ∃ k, index ordering (tag c) = Some k ∧
                                   new_index < k
                  end).
  { destruct post as [|c post]; [done|].
    rewrite Hcs in Hall. apply Forall_app in Hall as [_ Hall].
    apply Forall_cons in Hall as [Hc _].
    apply index_is_Some in Hc as [k Hk]. exists k. split; [done|].
    destruct (le_lt_dec k new_index); [|done].
    exfalso. apply Hpost. by exists k. }
  split; [done|].
  rewrite (add_child_ordered _ _ _ _ pre post s Hidx Hcs Hpre Hpost).
  do 2 f_equal.
  destruct post as [|c post]; simpl; [by rewrite app_nil_r|].
  destruct Hhead as (k & Hk & _). unfold boundary_warning.
  by rewrite Hk, app_nil_r.
Qed.

(** The scenario of the specification: [References] is added between
    [Info] and [DiskSection]. *)
Lemma add_child_before_first_greater_witness :
  ∃ pre post,
    children Envelope_example = pre ++ post ∧
    List.map tag (pre ++ new_Element "References" :: post)
      = ["Info"; "References"; "DiskSection"] ∧
    add_child (new_Element "References")
      (Some ["Info"; "References"; "DiskSection"]) None
      (mkStore Envelope_example [])
    = (inr (length pre),
       mkStore (set_children Envelope_example
                  (pre ++ new_Element "References" :: post)) []).
Proof.
  destruct (add_child_before_first_greater (new_Element "References")
              ["Info"; "References"; "DiskSection"] None 1
              (mkStore Envelope_example []))
    as (pre & post & Hcs & Hpre & Hpost & Hadd).
  - reflexivity.
  - repeat constructor; apply mem_elem_of; reflexivity.
  - exists pre, post. split; [exact Hcs|]. split; [|exact Hadd].
    apply (f_equal (fun r => List.map tag (children (st_parent (snd r)))))
      in Hadd.
    symmetry. exact Hadd.
Defined.

(** C4 as stated fails when a child with a strictly greater index
    stands before the first child whose tag is not in the ordering: the
    loop stops at the former, the new child is inserted there and not
    immediately before the latter, and nothing is logged although
    [known_namespaces] contains the namespace of the latter. *)
Lemma add_child_stops_before_unordered_child :
  let B := new_Element "{urn:ovf}B" in
  let X := new_Element "{urn:ovf}X" in
  let A := new_Element "{urn:ovf}A" in
  let ordering := ["{urn:ovf}A"; "{urn:ovf}B"] in
  let known_namespaces := Some ["urn:ovf"] in
  let s' := snd (add_child A (Some ordering) known_namespaces
                   (mkStore (mkElement "{urn:ovf}P" ∅ None None [B; X]) [])) in
  index ordering (tag A) = Some 0 ∧
  index ordering (tag B) = Some 1 ∧
  index ordering (tag X) = None ∧
  known_namespace known_namespaces (tag X) ∧
  children (st_parent s') = [A; B; X] ∧
  children (st_parent s') ≠ [B; A; X] ∧
  WarnExistingChild (tag X) ∉ st_log s'.
Proof.
  repeat split; try reflexivity.
  - exists ["urn:ovf"]. split; [reflexivity|]. apply mem_elem_of. reflexivity.
  - discriminate.
  - apply not_elem_of_nil.
Qed.

(** C4, amended: when the loop of [add_child] reaches an existing
    child [c] whose tag is not found in the ordering (the tag of every
    child before it is in the ordering, at an index that is not
    greater than that of the new child), [c] is the boundary: the new
    child is inserted immediately before [c], the loop stops there
    (nothing is logged for later children), and the warning about [c]
    is logged if and only if [known_namespaces] is supplied and
    contains the namespace of [c]. *)
Theorem add_child_unordered_boundary new_child ordering known_namespaces
    new_index pre c post s :
  index ordering (tag new_child) = Some new_index →
  children (st_parent s) = pre ++ c :: post →
  Forall (scan_passes ordering new_index) pre →
  index ordering (tag c) = None →
  ∃ s',
    add_child new_child (Some ordering) known_namespaces s
      = (inr (length pre), s') ∧
    st_parent s'
      = set_children (st_parent s) (pre ++ new_child :: c :: post) ∧
    (known_namespace known_namespaces (tag c) →
     st_log s' = st_log s ++ [WarnExistingChild (tag c)]) ∧
    (¬ known_namespace known_namespaces (tag c) → st_log s' = st_log s).
Proof.
  intros Hidx Hcs Hpre Hc.
  assert (Hstop : ¬ scan_passes ordering new_index c).
  { intros (k & Hk & _). congruence. }
  eexists. split.
  { exact (add_child_ordered _ _ known_namespaces _ pre (c :: post) s
             Hidx Hcs Hpre Hstop). }
  simpl. split; [done|]. unfold boundary_warning. rewrite Hc.
  unfold known_namespace. rewrite <- in_known_namespace_spec.
  destruct (in_known_namespace known_namespaces (tag c)).
  - split; [done|]. intros H. by destruct H.
  - split; [done|]. intros _. by rewrite app_nil_r.
Qed.

Lemma add_child_unordered_boundary_witness :
  ∃ s',
    add_child (new_Element "{urn:ovf}B") (Some ["{urn:ovf}A"; "{urn:ovf}B"])
      (Some ["urn:ovf"])
      (mkStore (mkElement "{urn:ovf}P" ∅ None None
                  [new_Element "{urn:ovf}A"; new_Element "{urn:ovf}X";
                   new_Element "{urn:ovf}Y"]) [])
    = (inr 1, s') ∧
    List.map tag (children (st_parent s'))
      = ["{urn:ovf}A"; "{urn:ovf}B"; "{urn:ovf}X"; "{urn:ovf}Y"] ∧
    st_log s' = [WarnExistingChild "{urn:ovf}X"].
Proof.
  destruct (add_child_unordered_boundary (new_Element "{urn:ovf}B")
              ["{urn:ovf}A"; "{urn:ovf}B"] (Some ["urn:ovf"]) 1
              [new_Element "{urn:ovf}A"] (new_Element "{urn:ovf}X")
              [new_Element "{urn:ovf}Y"]
              (mkStore (mkElement "{urn:ovf}P" ∅ None None
                          [new_Element "{urn:ovf}A"; new_Element "{urn:ovf}X";
                           new_Element "{urn:ovf}Y"]) []))
    as (s' & Hadd & Hparent & Hwarn & _).
  - reflexivity.
  - reflexivity.
  - repeat constructor. exists 0. split; [reflexivity | lia].
  - reflexivity.
  - exists s'. split; [exact Hadd|]. split.
    + rewrite Hparent. reflexivity.
    + apply Hwarn. exists ["urn:ovf"]. split; [reflexivity|].
      apply mem_elem_of. reflexivity.
Defined.

(** C5 as stated fails for an ordering that is supplied but empty: the
    tag of the new child is not listed in it and [known_namespaces]
    contains the namespace of the new child, yet nothing is logged
    (the test [if ordering] takes the empty list for an absent one). *)
Lemma add_child_empty_ordering_no_warning :
  let new_child := new_Element "{urn:ovf}Custom" in
  let ordering : list string := [] in
  let known_namespaces := Some ["urn:ovf"] in
  let s' := snd (add_child new_child (Some ordering) known_namespaces
                   (mkStore Envelope_example [])) in
  (tag new_child ∉ ordering) ∧
  known_namespace known_namespaces (tag new_child) ∧
  ¬ (known_namespace known_namespaces (tag new_child) →
     WarnNewChild (tag new_child) ∈ st_log s').
Proof.
  simpl. split; [apply not_elem_of_nil|].
  assert (Hk : known_namespace (Some ["urn:ovf"]) "{urn:ovf}Custom").
  { exists ["urn:ovf"]. split; [reflexivity|]. apply mem_elem_of. reflexivity. }
  split; [exact Hk|]. intros H. specialize (H Hk).
  vm_compute in H. by apply not_elem_of_nil in H.
Qed.

(** C5, amended: when the ordering is supplied and does not list the
    tag of the new child, [add_child] appends the new child after all
    existing children, and logs the warning about it if and only if the
    ordering is not empty and [known_namespaces] is supplied and
    contains the namespace of the new child. *)
Theorem add_child_unlisted_tag new_child ordering known_namespaces s :
  tag new_child ∉ ordering →
  ∃ s',
    add_child new_child (Some ordering) known_namespaces s
      = (inr (length (children (st_parent s))), s') ∧
    st_parent s'
      = set_children (st_parent s) (children (st_parent s) ++ [new_child]) ∧
    (ordering ≠ [] ∧ known_namespace known_namespaces (tag new_child) →
     st_log s' = st_log s ++ [WarnNewChild (tag new_child)]) ∧
    (¬ (ordering ≠ [] ∧ known_namespace known_namespaces (tag new_child)) →
     st_log s' = st_log s).
Proof.
  intros Hnot. eexists. split.
  { apply add_child_append. change (olist (Some ordering)) with ordering.
    apply andb_false_iff. right.
    destruct (mem (tag new_child) ordering) eqn:E; [|done].
    by apply mem_elem_of in E. }
  simpl. split; [done|].
  unfold known_namespace. rewrite <- in_known_namespace_spec.
  destruct ordering as [|t ordering]; simpl.
  - split; [by intros [? _] | intros _; by rewrite app_nil_r].
  - destruct (in_known_namespace known_namespaces (tag new_child)).
    + split; [done|]. intros H. exfalso. by apply H.
    + split; [by intros [_ ?] | intros _; by rewrite app_nil_r].
Qed.

(** The scenario of the specification: a tag of a namespace that is
    not known, with an ordering that does not list it, goes to the end
    and nothing is logged. *)
Lemma add_child_unlisted_tag_witness :
  ∃ s',
    add_child (new_Element "{urn:unknown}Custom")
      (Some ["Info"; "References"; "DiskSection"]) (Some ["urn:ovf"])
      (mkStore Envelope_example [])
    = (inr 2, s') ∧
    List.map tag (children (st_parent s'))
      = ["Info"; "DiskSection"; "{urn:unknown}Custom"] ∧
    st_log s' = [].
Proof.
  destruct (add_child_unlisted_tag (new_Element "{urn:unknown}Custom")
              ["Info"; "References"; "DiskSection"] (Some ["urn:ovf"])
              (mkStore Envelope_example []))
    as (s' & Hadd & Hparent & _ & Hlog).
  - intros H. apply mem_elem_of in H. discriminate H.
  - exists s'. split; [exact Hadd|]. split.
    + rewrite Hparent. reflexivity.
    + apply Hlog. intros [_ (l & [= <-] & H)].
      apply mem_elem_of in H. discriminate H.
Defined.

(** ** A sequence of ordered insertions *)

Lemma StronglySorted_le_app (l1 l2 : list nat) :
  StronglySorted le (l1 ++ l2) ↔
  StronglySorted le l1 ∧ StronglySorted le l2 ∧
  ∀ x y, x ∈ l1 → y ∈ l2 → x ≤ y.
Proof.
  induction l1 as [|a l1 IH]; simpl.
  - split.
    + intros H. split; [constructor|]. split; [done|].
      intros x y Hx. by apply not_elem_of_nil in Hx.
    + by intros (_ & H & _).
  - split.
    + intros H. apply StronglySorted_inv in H as [H Ha].
      apply IH in H as (H1 & H2 & Hc).
      apply Forall_app in Ha as [Ha1 Ha2].
      split; [by constructor|]. split; [done|].
      intros x y Hx Hy. apply elem_of_cons in Hx as [->|Hx]; [|by apply Hc].
      rewrite List.Forall_forall in Ha2. by apply Ha2, list_elem_of_In.
    + intros (H1 & H2 & Hc). apply StronglySorted_inv in H1 as [H1 Ha].
      constructor.
      * apply IH. split; [done|]. split; [done|].
        intros x y Hx Hy. apply Hc; [by right | done].
      * apply Forall_app. split; [done|].
        apply List.Forall_forall. intros y Hy.
        apply Hc; [left | by apply list_elem_of_In].
Qed.

Section stable_insertion.
Variable ordering : list string.

Lemma index_lt_length x k : index ordering x = Some k → k < length ordering.
Proof.
  intros H. apply index_Some_lookup in H as [H _].
  by apply lookup_lt_Some in H.
Qed.

Lemma sort_key_le_length c : sort_key ordering c ≤ length ordering.
Proof.
  unfold sort_key, ordering_index.
  destruct (index ordering (tag c)) as [k|] eqn:E; simpl; [|done].
  apply index_lt_length in E. lia.
Qed.

Lemma scan_passes_sort_key new_index c :
  new_index < length ordering →
  scan_passes ordering new_index c ↔ sort_key ordering c ≤ new_index.
Proof.
  intros Hn. unfold scan_passes, sort_key, ordering_index.
  destruct (index ordering (tag c)) as [k|]; simpl.
  - split; [by intros (k' & [= <-] & H) | intros H; by exists k].
  - split; [by intros (k' & ? & _) | lia].
Qed.

Lemma stable_sorted_append inserted cs c :
  ordering_index ordering c = None →
  stable_sorted ordering inserted cs →
  stable_sorted ordering (inserted ++ [c]) (cs ++ [c]).
Proof.
  intros Hc (Hs & Hp & Hf). split; [|split].
  - rewrite List.map_app. apply StronglySorted_le_app.
    split; [done|]. split; [repeat constructor|].
    intros x y Hx Hy. apply list_elem_of_singleton in Hy as ->.
    apply list_elem_of_In, in_map_iff in Hx as (c' & <- & _).
    unfold sort_key at 2. rewrite Hc. apply sort_key_le_length.
  - by rewrite Hp.
  - intros k. by rewrite !filter_app, Hf.
Qed.

Lemma stable_sorted_insert inserted pre rest c new_index :
  ordering_index ordering c = Some new_index →
  Forall (scan_passes ordering new_index) pre →
  match rest with
  | [] => True
  | c' :: _ => ¬ scan_passes ordering new_index c'
  end →
  stable_sorted ordering inserted (pre ++ rest) →
  stable_sorted ordering (inserted ++ [c]) (pre ++ c :: rest).
Proof.
  intros Hc Hpre Hrest (Hs & Hp & Hf).
  assert (Hn : new_index < length ordering) by by eapply index_lt_length.
  assert (Hkey : sort_key ordering c = new_index)
    by (unfold sort_key; by rewrite Hc).
  rewrite List.map_app in Hs.
  apply StronglySorted_le_app in Hs as (Hs1 & Hs2 & Hcross).
  assert (Hgt : Forall (fun c' => new_index < sort_key ordering c') rest).
  { destruct rest as [|c' rest]; [constructor|].
    assert (new_index < sort_key ordering c') as Hc'.
    { destruct (le_lt_dec (sort_key ordering c') new_index); [|done].
      exfalso. by apply Hrest, scan_passes_sort_key. }
    constructor; [done|]. simpl in Hs2.
    apply StronglySorted_inv in Hs2 as [_ Hall].
    rewrite List.Forall_forall in *. intros c'' Hin.
    specialize (Hall (sort_key ordering c'') (in_map _ _ _ Hin)). lia. }
  split; [|split].
  - rewrite List.map_app. simpl. apply StronglySorted_le_app.
    split; [done|]. split.
    + constructor; [done|]. rewrite Hkey.
      rewrite List.Forall_forall in *. intros k Hk.
      apply in_map_iff in Hk as (c' & <- & Hin). apply Hgt in Hin. lia.
    + intros x y Hx Hy. apply elem_of_cons in Hy as [->|Hy].
      * rewrite Hkey.
        apply list_elem_of_In, in_map_iff in Hx as (c' & <- & Hin).
        rewrite List.Forall_forall in Hpre.
        by apply scan_passes_sort_key, Hpre.
      * by apply Hcross.
  - rewrite <- Hp, <- Permutation_middle. apply Permutation_cons_append.
  - intros k. rewrite !filter_app, <- Hf, filter_app, <- app_assoc.
    f_equal. rewrite filter_cons.
    destruct (decide (ordering_index ordering c = Some k)) as [Hk|Hk].
    + assert (filter (fun c0 => ordering_index ordering c0 = Some k) rest
              = []) as ->.
      { rewrite Hc in Hk. injection Hk as <-.
        clear -Hgt. induction rest as [|c' rest IH]; [done|].
        apply Forall_cons in Hgt as [Hc' Hgt].
        rewrite filter_cons_False; [by apply IH|].
        unfold sort_key in Hc'. intros E. rewrite E in Hc'. simpl in Hc'.
        lia. }
      by rewrite (filter_cons_True _ c []).
    + rewrite (filter_cons_False _ c []) by done.
      by rewrite filter_nil, app_nil_r.
Qed.

(** One call of [add_child] keeps the children sorted and stable. *)
Lemma add_child_stable_sorted inserted c known_namespaces s :
  stable_sorted ordering inserted (children (st_parent s)) →
  ∃ i s',
    add_child c (Some ordering) known_namespaces s = (inr i, s') ∧
    stable_sorted ordering (inserted ++ [c]) (children (st_parent s')).
Proof.
  intros Hinv.
  destruct (ordering_index ordering c) as [n|] eqn:Hc.
  - destruct (scan_split ordering n (children (st_parent s)))
      as (pre & rest & Hcs & Hpre & Hrest).
    do 2 eexists. split.
    + by apply (add_child_ordered _ _ _ n pre rest).
    + simpl. rewrite Hcs in Hinv. by eapply stable_sorted_insert.
  - do 2 eexists. split.
    + apply add_child_append. change (olist (Some ordering)) with ordering.
      apply andb_false_iff. right.
      destruct (mem (tag c) ordering) eqn:E; [|done].
      apply mem_elem_of in E. by apply index_None in Hc.
    + simpl. by apply stable_sorted_append.
Qed.

Lemma add_children_stable_sorted inserted inserts s :
  stable_sorted ordering inserted (children (st_parent s)) →
  ∃ s',
    add_children inserts (Some ordering) s = (inr tt, s') ∧
    stable_sorted ordering (inserted ++ inserts.*1) (children (st_parent s')).
Proof.
  revert inserted s.
  induction inserts as [|[c kn] inserts IH]; intros inserted s Hinv.
  - exists s. simpl. by rewrite app_nil_r.
  - destruct (add_child_stable_sorted inserted c kn s Hinv)
      as (i & s1 & Hadd & Hinv1).
    destruct (IH _ s1 Hinv1) as (s' & Hrest & Hinv').
    exists s'. split.
    + simpl. unfold bind. by rewrite Hadd.
    + simpl. by rewrite (cons_middle c), app_assoc.
Qed.

Lemma sort_key_sorted_indices cs :
  StronglySorted le (List.map (sort_key ordering) cs) →
  StronglySorted le (omap (ordering_index ordering) cs).
Proof.
  induction cs as [|c cs IH]; simpl; [constructor|].
  intros H. apply StronglySorted_inv in H as [H Hc].
  unfold sort_key at 1 in Hc.
  destruct (ordering_index ordering c) as [k|] eqn:E; simpl; [|by apply IH].
  constructor; [by apply IH|].
  rewrite List.Forall_forall in *. intros j Hj.
  apply list_elem_of_In, list_elem_of_omap in Hj as (c' & Hin & Hj).
  specialize (Hc (sort_key ordering c')
                (in_map _ _ _ (proj1 (list_elem_of_In _ _) Hin))).
  unfold sort_key in Hc. by rewrite Hj in Hc.
Qed.
End stable_insertion.

(** C1: starting from a parent without children, after any sequence of
    calls of [add_child] with the ordering [ordering], the children
    whose tags appear in the ordering stand sorted by their index in
    it, and those of equal index stand in the order of their insertion.
    (Every call returns, and the children are those inserted.) *)
Theorem add_child_sequence_sorted_stable ordering inserts s :
  children (st_parent s) = [] →
  ∃ s',
    add_children inserts (Some ordering) s = (inr tt, s') ∧
    let final := children (st_parent s') in
    StronglySorted le (omap (ordering_index ordering) final) ∧
    final ≡ₚ inserts.*1 ∧
    ∀ k, filter (fun c => ordering_index ordering c = Some k) final
         = filter (fun c => ordering_index ordering c = Some k) inserts.*1.
Proof.
  intros Hempty.
  destruct (add_children_stable_sorted ordering [] inserts s)
    as (s' & Hrun & Hs & Hp & Hf).
  { rewrite Hempty. split; [constructor|]. split; done. }
  exists s'. split; [done|]. simpl. split; [|split].
  - by apply sort_key_sorted_indices.
  - done.
  - done.
Qed.

Lemma add_child_sequence_sorted_stable_witness :
  ∃ s',
    add_children
      [(new_Element "DiskSection", None); (new_Element "Custom", None);
       (mkElement "Info" ∅ (Some "first") None [], None);
       (new_Element "References", None);
       (mkElement "Info" ∅ (Some "second") None [], None)]
      (Some ["Info"; "References"; "DiskSection"])
      (mkStore (new_Element "Envelope") [])
    = (inr tt, s') ∧
    List.map (fun c => (tag c, text c)) (children (st_parent s'))
    = [("Info", Some "first"); ("Info", Some "second");
       ("References", None); ("DiskSection", None); ("Custom", None)].
Proof.
  destruct (add_child_sequence_sorted_stable
              ["Info"; "References"; "DiskSection"]
              [(new_Element "DiskSection", None); (new_Element "Custom", None);
               (mkElement "Info" ∅ (Some "first") None [], None);
               (new_Element "References", None);
               (mkElement "Info" ∅ (Some "second") None [], None)]
              (mkStore (new_Element "Envelope") []))
    as (s' & Hrun & _).
  - reflexivity.
  - exists s'. split; [exact Hrun|].
    apply (f_equal (fun r =>
             List.map (fun c => (tag c, text c))
                      (children (st_parent (snd r))))) in Hrun.
    symmetry. exact Hrun.
Defined.

(** ** Find-or-create update *)


(** Setting the attributes of a dictionary one by one. *)
Lemma fold_insert_lookup (l : list (string * string))
    (m : gmap string string) k :
  NoDup l.*1 →
  fold_left (fun m kv => <[fst kv := snd kv]> m) l m !! k
  = match (list_to_map l : gmap string string) !! k with
    | Some v => Some v
    | None => m !! k
    end.
Proof.
  revert m. induction l as [|[k0 v0] l IH]; intros m Hnd; simpl.
  - by rewrite lookup_empty.
  - apply NoDup_cons in Hnd as [Hk0 Hnd]. rewrite IH by done.
    destruct (decide (k0 = k)) as [->|Hne].
    + rewrite lookup_insert_eq.
      rewrite (not_elem_of_list_to_map_1 l k) by done.
      by rewrite lookup_insert_eq.
    + by rewrite !lookup_insert_ne by done.
Qed.

Lemma set_all_attrib attrib_ e :
  set_all attrib_ e = set_attrib e (attrib_ ∪ attrib e).
Proof.
  unfold set_all.
  assert (∀ l e, fold_left (fun e kv => Element_set e (fst kv) (snd kv)) l e
                 = set_attrib e
                     (fold_left (fun m kv => <[fst kv := snd kv]> m) l
                                (attrib e))) as ->.
  { clear. induction l as [|[k v] l IH]; intros e; simpl.
    - by destruct e.
    - by rewrite IH. }
  f_equal. apply map_eq. intros k.
  rewrite fold_insert_lookup by apply NoDup_fst_map_to_list.
  rewrite list_to_map_to_list, lookup_union.
  by destruct (attrib_ !! k), (attrib e !! k).
Qed.

Lemma set_all_id attrib_ e : attrib_ ⊆ attrib e → set_all attrib_ e = e.
Proof.
  intros H. rewrite set_all_attrib, (map_subseteq_union _ _ H).
  by destruct e.
Qed.

Lemma refs_from_cons k x cs :
  refs_from k (x :: cs) = (k, x) :: refs_from (S k) cs.
Proof.
  unfold refs_from. rewrite imap_cons, Nat.add_0_r. f_equal.
  apply imap_ext. intros j y _. simpl. f_equal. lia.
Qed.

Lemma find_all_children_one parent t attrib_ :
  find_all_children parent (OneTag t) attrib_
  = List.filter (fun r => child_selected t attrib_ (snd r))
                (refs_from 0 (children parent)).
Proof.
  unfold find_all_children, findall, child_refs, refs_from, child_selected.
  simpl. induction (imap pair (children parent)) as [|r l IH]; simpl; [done|].
  destruct (String.eqb (tag r.2) t); simpl; [|done].
  destruct (child_found attrib_ r.2); by rewrite IH.
Qed.

Section selected_refs.
Variable q : Element → bool.

Lemma selected_none k cs :
  List.filter (fun r => q (snd r)) (refs_from k cs) = [] ↔
  Forall (fun x => q x = false) cs.
Proof.
  revert k. induction cs as [|x cs IH]; intros k.
  - split; [constructor | done].
  - rewrite refs_from_cons. simpl. destruct (q x) eqn:E.
    + split; [done|]. intros H. apply Forall_cons in H as [H _]. congruence.
    + rewrite IH. split; [by constructor | by intros [_ ?]%Forall_cons].
Qed.

Lemma selected_one k pre e post :
  Forall (fun x => q x = false) pre → q e = true →
  Forall (fun x => q x = false) post →
  List.filter (fun r => q (snd r)) (refs_from k (pre ++ e :: post))
  = [(k + length pre, e)].
Proof.
  intros Hpre He Hpost. revert k.
  induction Hpre as [|x pre Hx _ IH]; intros k.
  - rewrite app_nil_l, refs_from_cons. simpl.
    rewrite He, Nat.add_0_r. f_equal. by apply selected_none.
  - rewrite <- app_comm_cons, refs_from_cons. simpl.
    rewrite Hx, IH. do 2 f_equal. lia.
Qed.

Lemma selected_one_inv k cs i e :
  List.filter (fun r => q (snd r)) (refs_from k cs) = [(i, e)] →
  ∃ pre post, cs = pre ++ e :: post ∧ i = k + length pre ∧ q e = true ∧
    Forall (fun x => q x = false) pre ∧ Forall (fun x => q x = false) post.
Proof.
  revert k. induction cs as [|x cs IH]; intros k; [done|].
  rewrite refs_from_cons. simpl. destruct (q x) eqn:E.
  - intros [= <- <- Hrest]. apply selected_none in Hrest.
    exists [], cs. simpl. rewrite Nat.add_0_r. done.
  - intros H. apply IH in H as (pre & post & -> & -> & He & Hpre & Hpost).
    exists (x :: pre), post. simpl. split; [done|]. split; [lia|].
    split; [done|]. split; [by constructor | done].
Qed.
End selected_refs.

(** [add_child] always returns: the new child stands at the position
    returned, among the existing children in their order. *)
Lemma add_child_inserts new_child ordering known_namespaces s :
  ∃ i w,
    i ≤ length (children (st_parent s)) ∧
    add_child new_child ordering known_namespaces s
    = (inr i,
       mkStore
         (set_children (st_parent s)
            (take i (children (st_parent s)) ++
             new_child :: drop i (children (st_parent s))))
         (st_log s ++ w)).
Proof.
  destruct (truthy ordering && mem (tag new_child) (olist ordering)) eqn:E.
  - apply andb_true_iff in E as [Ht Hmem].
    destruct ordering as [ordering|]; [|done].
    change (olist (Some ordering)) with ordering in Hmem.
    apply mem_elem_of, index_is_Some in Hmem as [n Hn].
    destruct (scan_split ordering n (children (st_parent s)))
      as (pre & rest & Hcs & Hpre & Hrest).
    exists (length pre), (rest_warning ordering known_namespaces rest).
    rewrite (add_child_ordered _ _ _ n pre rest) by done.
    rewrite Hcs, take_app_length, drop_app_length, length_app.
    split; [lia | done].
  - eexists _, _. rewrite add_child_append by done.
    rewrite firstn_all, drop_all. split; [|done]. done.
Qed.

(** [set_or_make_child], step by step. *)
Lemma set_or_make_child_unfold tag_ text_ attrib_ ordering known_namespaces s :
  set_or_make_child tag_ text_ attrib_ ordering known_namespaces s
  = match find_child (st_parent s) (OneTag tag_)
            (Some (default ∅ attrib_)) false with
    | inl e => (inl e, s)
    | inr found =>
        match
          match found with
          | None => add_child (new_Element tag_) ordering known_namespaces s
          | Some r => (inr (fst r), s)
          end
        with
        | (inl e, s1) => (inl e, s1)
        | (inr i, s1) =>
            (inr i,
             mkStore
               (set_children (st_parent s1)
                  (alter (settle text_ (default ∅ attrib_)) i
                         (children (st_parent s1))))
               (st_log s1))
        end
    end.
Proof.
  unfold set_or_make_child, bind. unfold get_parent at 1.
  destruct (find_child (st_parent s) (OneTag tag_)
              (Some (default ∅ attrib_)) false) as [e|found]; [done|].
  unfold ret at 1.
  assert (Hfinish : ∀ i s1,
    (let (r, s') :=
       match text_ with
       | Some t => update_child i (fun e => set_text e (Some t))
       | None => ret tt
       end s1 in
     match r with
     | inl e => (inl e, s')
     | inr _ =>
         let (r', s'') := update_child i (set_all (default ∅ attrib_)) s' in
         match r' with
         | inl e => (inl e, s'')
         | inr _ => ret i s''
         end
     end)
    = (inr i,
       mkStore
         (set_children (st_parent s1)
            (alter (settle text_ (default ∅ attrib_)) i
                   (children (st_parent s1))))
         (st_log s1))).
  { intros i s1. unfold settle, update_child, bind, get_parent, put_children,
      ret.
    destruct text_ as [t|]; simpl.
    - by rewrite list_alter_alter_eq.
    - done. }
  destruct found as [r|].
  - unfold ret at 1. apply Hfinish.
  - destruct (add_child (new_Element tag_) ordering known_namespaces s)
      as [[e|i] s1]; [done|]. apply Hfinish.
Qed.

Lemma child_selected_spec t attrib_ e :
  child_selected t attrib_ e = true ↔ matches_query t attrib_ e.
Proof.
  unfold child_selected, matches_query.
  by rewrite andb_true_iff, String.eqb_eq, child_found_subseteq.
Qed.

Lemma text_update_twice text_ e :
  text_update text_ (text_update text_ e) = text_update text_ e.
Proof. by destruct text_. Qed.

Lemma settle_selected t text_ attrib_ e :
  child_selected t (Some attrib_) e = true →
  settle text_ attrib_ e = text_update text_ e ∧
  child_selected t (Some attrib_) (text_update text_ e) = true.
Proof.
  intros H. apply child_selected_spec in H as [Htag Hsub]. simpl in Hsub.
  assert (H' : matches_query t (Some attrib_) (text_update text_ e))
    by (by destruct text_).
  split; [|by apply child_selected_spec].
  unfold settle. apply set_all_id. by destruct H' as [_ ?].
Qed.


(** The outcome of a call: it raises [LookupError] and changes
    nothing, or it returns the position of the one child that the
    query now selects. *)
Lemma set_or_make_child_outcome tag_ text_ attrib_ ordering known_namespaces s :
  let q := child_selected tag_ (Some (default ∅ attrib_)) in
  set_or_make_child tag_ text_ attrib_ ordering known_namespaces s
    = (inl LookupError, s) ∨
  ∃ pre e post w,
    set_or_make_child tag_ text_ attrib_ ordering known_namespaces s
      = (inr (length pre),
         mkStore (set_children (st_parent s) (pre ++ e :: post))
                 (st_log s ++ w)) ∧
    Forall (fun x => q x = false) pre ∧ q e = true ∧
    Forall (fun x => q x = false) post ∧
    text_update text_ e = e.
Proof.
  intros q. rewrite set_or_make_child_unfold, find_child_cases.
  rewrite find_all_children_one. subst q.
  destruct (List.filter _ (refs_from 0 (children (st_parent s))))
    as [|[i e] [|r' l]] eqn:Hsel.
  - right. apply selected_none in Hsel.
    destruct (add_child_inserts (new_Element tag_) ordering known_namespaces s)
      as (i & w & Hi & ->).
    set (e := settle text_ (default ∅ attrib_) (new_Element tag_)).
    exists (take i (children (st_parent s))), e,
           (drop i (children (st_parent s))), w.
    assert (Hlen : length (take i (children (st_parent s))) = i)
      by (rewrite length_take; lia).
    split; [|split; [|split; [|split]]].
    + rewrite Hlen. simpl. do 3 f_equal.
      rewrite <- Hlen at 1.
      replace (length (take i (children (st_parent s))))
        with (length (take i (children (st_parent s))) + 0) by lia.
      by rewrite alter_app_r.
    + by apply Forall_take.
    + apply child_selected_spec. subst e. unfold settle.
      rewrite set_all_attrib. split.
      * by destruct text_.
      * simpl. apply map_union_subseteq_l.
    + by apply Forall_drop.
    + subst e. unfold settle. rewrite set_all_attrib. by destruct text_.
  - right. apply selected_one_inv in Hsel
      as (pre & post & Hcs & -> & He & Hpre & Hpost).
    destruct (settle_selected tag_ text_ (default ∅ attrib_) e He)
      as [Hsettle He'].
    exists pre, (text_update text_ e), post, [].
    split; [|split; [|split; [|split]]]; try done.
    + simpl. rewrite app_nil_r. do 3 f_equal.
      replace (length pre) with (length pre + 0) by lia.
      by rewrite Hcs, alter_app_r, <- Hsettle.
    + apply text_update_twice.
  - by left.
Qed.







(** ** Re-indentation *)

(** The two cases of [xml_reindent]: no child, or some. *)
Lemma reindent_from_nil tl tg at_ tx tl0 depth :
  reindent_from tl (mkElement tg at_ tx tl0 []) depth
  = mkElement tg at_ tx
      (if (depth + 2 =? 0)%Z then Some newline else tl) [].
Proof. reflexivity. Qed.

Lemma reindent_from_cons tl tg at_ tx tl0 c ch depth :
  reindent_from tl (mkElement tg at_ tx tl0 (c :: ch)) depth
  = mkElement tg at_ (Some (indent (depth + 2)))
      (if (depth =? 0)%Z then Some newline else tl)
      (set_last_tail
         (List.map (fun elem =>
            reindent_from (Some (indent (depth + 2))) elem (depth + 2)%Z)
            (c :: ch))
         (Some (indent depth))).
Proof.
  cbn [reindent_from List.map].
  by replace (depth + 2 - 2)%Z with depth by lia.
Qed.

Lemma set_last_tail_length cs s :
  length (set_last_tail cs s) = length cs.
Proof.
  induction cs as [|x [|y cs] IH]; [done..|].
  change (set_last_tail (x :: y :: cs) s)
    with (x :: set_last_tail (y :: cs) s).
  cbn [length]. by rewrite IH.
Qed.

Lemma set_last_tail_cons x cs s :
  ∃ y cs', set_last_tail (x :: cs) s = y :: cs'.
Proof.
  destruct (set_last_tail (x :: cs) s) as [|y cs'] eqn:E; [|by eauto].
  apply (f_equal length) in E. by rewrite set_last_tail_length in E.
Qed.

Lemma skeleton_set_tail e s : skeleton (set_tail e s) = skeleton e.
Proof. by destruct e. Qed.

Lemma skeleton_set_last_tail cs s :
  List.map skeleton (set_last_tail cs s) = List.map skeleton cs.
Proof.
  induction cs as [|x [|y cs] IH]; [done| |].
  - cbn [set_last_tail List.map]. by rewrite skeleton_set_tail.
  - change (set_last_tail (x :: y :: cs) s)
      with (x :: set_last_tail (y :: cs) s).
    cbn [List.map]. by rewrite IH.
Qed.

Lemma skeleton_reindent_from e : ∀ tl depth,
  skeleton (reindent_from tl e depth) = skeleton e.
Proof.
  induction e as [tg at_ tx tl0 ch IH] using Element_tree_ind.
  intros tl depth. destruct ch as [|c ch].
  - by rewrite reindent_from_nil.
  - rewrite reindent_from_cons. cbn [skeleton].
    rewrite skeleton_set_last_tail, List.map_map.
    assert (List.map (fun x => skeleton
              (reindent_from (Some (indent (depth + 2))) x (depth + 2)%Z))
              (c :: ch) = List.map skeleton (c :: ch)) as Hch.
    { apply List.map_ext_Forall.
      eapply Forall_impl; [exact IH|]. intros x Hx. apply Hx. }
    rewrite Hch.
    destruct (set_last_tail_cons
                (reindent_from (Some (indent (depth + 2))) c (depth + 2)%Z)
                (List.map (fun elem =>
                   reindent_from (Some (indent (depth + 2))) elem
                                 (depth + 2)%Z) ch)
                (Some (indent depth))) as (y & cs' & E).
    cbn [List.map] in *. by rewrite E.
Qed.

Lemma blank_indent depth : blank (Some (indent depth)) = true.
Proof.
  unfold blank, indent, spaces. cbn [list_ascii_of_string forallb].
  rewrite list_ascii_of_string_of_list_ascii.
  induction (Z.to_nat depth) as [|n IH]; [done|]. simpl. exact IH.
Qed.

Lemma blank_newline : blank (Some newline) = true.
Proof. reflexivity. Qed.

Lemma tail_reindent_from tl e depth :
  tail (reindent_from tl e depth) = tl ∨
  tail (reindent_from tl e depth) = Some newline.
Proof.
  destruct e as [tg at_ tx tl0 [|c ch]].
  - rewrite reindent_from_nil. simpl.
    destruct (depth + 2 =? 0)%Z; [by right | by left].
  - rewrite reindent_from_cons. simpl.
    destruct (depth =? 0)%Z; [by right | by left].
Qed.

Lemma blank_tail_reindent_from tl e depth :
  blank tl = true → blank (tail (reindent_from tl e depth)) = true.
Proof.
  intros H. by destruct (tail_reindent_from tl e depth) as [-> | ->].
Qed.

Lemma significant_set_tail e s :
  blank s = true → blank (tail e) = true →
  significant (set_tail e s) = significant e.
Proof. destruct e. simpl. by intros -> ->. Qed.

Lemma significant_set_last_tail cs s :
  blank s = true → Forall (fun x => blank (tail x) = true) cs →
  List.map significant (set_last_tail cs s) = List.map significant cs.
Proof.
  intros Hs. induction cs as [|x [|y cs] IH]; intros Hcs; [done| |].
  - cbn [set_last_tail List.map]. apply Forall_cons in Hcs as [Hx _].
    by rewrite significant_set_tail.
  - change (set_last_tail (x :: y :: cs) s)
      with (x :: set_last_tail (y :: cs) s).
    apply Forall_cons in Hcs as [_ Hcs]. cbn [List.map]. by rewrite IH.
Qed.

(** On a tree without mixed content, re-indentation from a blank tail
    leaves the significant content as it was. *)
Lemma significant_reindent_from e : ∀ tl depth,
  blank tl = true → no_mixed_content e = true →
  significant (reindent_from tl e depth) = significant e.
Proof.
  induction e as [tg at_ tx tl0 ch IH] using Element_tree_ind.
  intros tl depth Htl Hno. cbn [no_mixed_content] in Hno.
  apply andb_true_iff in Hno as [Hno Hch].
  apply andb_true_iff in Hno as [Htx Htl0].
  destruct ch as [|c ch].
  - rewrite reindent_from_nil. cbn [significant List.map]. rewrite Htl0.
    f_equal. destruct (depth + 2 =? 0)%Z; [done | by rewrite Htl].
  - rewrite reindent_from_cons. cbn [significant].
    rewrite blank_indent, Htx, Htl0.
    assert (blank (if (depth =? 0)%Z then Some newline else tl) = true) as ->
      by (by destruct (depth =? 0)%Z).
    f_equal.
    rewrite significant_set_last_tail.
    + rewrite List.map_map. apply List.map_ext_Forall.
      rewrite forallb_forall in Hch. rewrite List.Forall_forall in *.
      intros x Hx. apply IH; [done | apply blank_indent | by apply Hch].
    + apply blank_indent.
    + rewrite List.Forall_forall. intros x Hx.
      apply in_map_iff in Hx as (y & <- & _).
      apply blank_tail_reindent_from, blank_indent.
Qed.

(** C9: [xml_reindent] writes to text and tail fields only: at every
    element the tag and the attributes are as before, the children are
    the same in number and order, and the text of an element without
    children is as before; so on a tree without mixed content the
    significant content (all but whitespace-only text and tails) is
    unchanged. *)
Theorem xml_reindent_keeps_content e depth :
  skeleton (xml_reindent e depth) = skeleton e ∧
  (no_mixed_content e = true →
   significant (xml_reindent e depth) = significant e).
Proof.
  unfold xml_reindent. split.
  - apply skeleton_reindent_from.
  - intros Hno. apply significant_reindent_from; [|done].
    destruct e as [tg at_ tx tl ch]. cbn [no_mixed_content] in Hno.
    apply andb_true_iff in Hno as [Hno _].
    by apply andb_true_iff in Hno as [_ Htl].
Qed.

Lemma xml_reindent_keeps_content_witness :
  significant (xml_reindent document_example 0) = significant document_example.
Proof.
  apply (proj2 (xml_reindent_keeps_content document_example 0)).
  reflexivity.
Defined.

Lemma indented_set_tail depth e s :
  indented depth (set_tail e s) = indented depth e.
Proof. by destruct e as [tg at_ tx tl [|c ch]]. Qed.

Lemma set_last_tail_snoc cs x s :
  set_last_tail (cs ++ [x]) s = cs ++ [set_tail x s].
Proof.
  induction cs as [|y cs IH]; [done|].
  rewrite <- !app_comm_cons, <- IH.
  by destruct cs.
Qed.

(** Below the root the tail written by the caller stays. *)
Lemma tail_reindent_from_pos tl e depth :
  (0 < depth)%Z → tail (reindent_from tl e depth) = tl.
Proof.
  intros Hd. destruct e as [tg at_ tx tl0 [|c ch]].
  - rewrite reindent_from_nil. simpl.
    by destruct (Z.eqb_spec (depth + 2) 0); [lia|].
  - rewrite reindent_from_cons. simpl.
    by destruct (Z.eqb_spec depth 0); [lia|].
Qed.

(** Re-indentation from a depth that is not negative indents the
    whole subtree. *)
Lemma indented_reindent_from e : ∀ tl depth,
  (0 ≤ depth)%Z → indented depth (reindent_from tl e depth) = true.
Proof.
  induction e as [tg at_ tx tl0 ch IH] using Element_tree_ind.
  intros tl depth Hd. destruct ch as [|c ch]; [done|].
  rewrite reindent_from_cons.
  set (R := fun elem =>
         reindent_from (Some (indent (depth + 2))) elem (depth + 2)%Z).
  assert (Hne : List.map R (c :: ch) ≠ []) by done.
  destruct (exists_last Hne) as (l & x & Hl).
  assert (Hall : Forall (fun y => tail y = Some (indent (depth + 2)) ∧
                                  indented (depth + 2) y = true)
                        (l ++ [x])).
  { rewrite <- Hl. rewrite List.Forall_forall in *. intros y Hy.
    apply in_map_iff in Hy as (y0 & <- & Hy0). split.
    - apply tail_reindent_from_pos. lia.
    - apply IH; [done | lia]. }
  rewrite Hl, set_last_tail_snoc.
  apply Forall_app in Hall as [Hl' Hx]. apply Forall_cons in Hx as [[_ Hx] _].
  cbn [indented].
  destruct (l ++ [set_tail x (Some (indent depth))]) as [|y0 l0] eqn:E;
    [by destruct l|].
  rewrite <- E. clear E y0 l0.
  unfold preceding_whitespace, closing_whitespace. cbn [children text].
  destruct (l ++ [set_tail x (Some (indent depth))]) as [|y0 l0] eqn:E;
    [by destruct l|].
  rewrite <- E. clear E y0 l0.
  rewrite removelast_last, last_snoc. cbn [forallb mbind option_bind].
  repeat (apply andb_true_iff; split).
  - by apply bool_decide_eq_true.
  - apply forallb_forall. intros o Ho.
    apply in_map_iff in Ho as (y & <- & Hy).
    rewrite List.Forall_forall in Hl'. apply Hl' in Hy as [-> _].
    by apply bool_decide_eq_true.
  - destruct x. by apply bool_decide_eq_true.
  - rewrite forallb_app. apply andb_true_iff. split.
    + apply forallb_forall. intros y Hy.
      rewrite List.Forall_forall in Hl'. by apply Hl' in Hy as [_ ?].
    + cbn [forallb]. by rewrite indented_set_tail, Hx.
Qed.

(** The tree is indented after [xml_reindent(root, 0)], and a root
    with children gets the final newline. *)
Lemma xml_reindent_indented root :
  indented 0 (xml_reindent root 0) = true.
Proof. by apply indented_reindent_from. Qed.

Lemma xml_reindent_root_tail root :
  children root ≠ [] → tail (xml_reindent root 0) = Some newline.
Proof.
  unfold xml_reindent. destruct root as [tg at_ tx tl [|c ch]]; [done|].
  intros _. by rewrite reindent_from_cons.
Qed.

(** A root without children is left as it is. *)
Lemma xml_reindent_childless root :
  children root = [] → xml_reindent root 0 = root.
Proof.
  unfold xml_reindent. destruct root as [tg at_ tx tl ch].
  cbn [children tail]. intros ->. by rewrite reindent_from_nil.
Qed.

(** C8 fails on a root without children: after [xml_reindent(root, 0)]
    its tail is not the newline but what it was (here nothing), since
    the depth is taken back to 0 only when there is a last child. *)
Theorem xml_reindent_childless_root_tail :
  tail (xml_reindent (new_Element "Envelope") 0) = None ∧
  tail (xml_reindent (new_Element "Envelope") 0) ≠ Some newline.
Proof. split; [reflexivity | discriminate]. Qed.

(** * Further properties *)

(** ** Namespace utilities *)

Lemma line_prefix_no_newline s :
  has_char "010"%char s = false → line_prefix s = s.
Proof.
  induction s as [|c s IH]; simpl; [done|].
  intros H. apply orb_false_iff in H as [Hc Hs].
  rewrite Hc. by rewrite IH.
Qed.

Lemma has_char_append c s1 s2 :
  has_char c (s1 ++ s2)%string = has_char c s1 || has_char c s2.
Proof.
  induction s1 as [|c1 s1 IH]; simpl; [done|].
  by rewrite IH, orb_assoc.
Qed.

Lemma last_rbrace_None s :
  last_rbrace s = None ↔ has_char "}"%char s = false.
Proof.
  induction s as [|c s IH]; simpl; [done|].
  destruct (last_rbrace s) as [i|].
  - split; [done|]. intros H. apply orb_false_iff in H as [_ H].
    apply IH in H. done.
  - destruct (Ascii.eqb c "}"); simpl; [done|]. split; [|done].
    intros _. by apply IH.
Qed.

Lemma last_rbrace_append s1 s2 :
  has_char "}"%char s2 = false →
  last_rbrace (s1 ++ String "}"%char s2)%string = Some (String.length s1).
Proof.
  intros H2. apply last_rbrace_None in H2.
  induction s1 as [|c s1 IH]; simpl.
  - by rewrite H2.
  - by rewrite IH.
Qed.

Lemma substring_append_l s1 s2 :
  substring 0 (String.length s1) (s1 ++ s2)%string = s1.
Proof.
  induction s1 as [|c s1 IH]; simpl.
  - by destruct s2.
  - by rewrite IH.
Qed.

Lemma substring_all s : substring 0 (String.length s) s = s.
Proof. induction s as [|c s IH]; simpl; [done|]. by rewrite IH. Qed.

Lemma substring_append_r s1 c s2 :
  substring (S (String.length s1))
    (String.length (s1 ++ String c s2)%string - S (String.length s1))
    (s1 ++ String c s2)%string = s2.
Proof.
  induction s1 as [|c1 s1 IH]; simpl.
  - rewrite Nat.sub_0_r. apply substring_all.
  - apply IH.
Qed.

(** X1: the two parts of a qualified name come back: for a name
    [{uri}local] on one line whose local part has no closing brace,
    [get_ns] is [uri] (which may itself contain braces) and [strip_ns]
    is [local]. *)
Theorem get_ns_strip_ns_qualified uri local_ :
  has_char "010"%char uri = false →
  has_char "010"%char local_ = false →
  has_char "}"%char local_ = false →
  get_ns (qualified uri local_) = uri ∧
  strip_ns (qualified uri local_) = local_.
Proof.
  intros Hu Hl Hb. unfold get_ns, match_ns, strip_ns, qualified.
  rewrite line_prefix_no_newline
    by (rewrite has_char_append; simpl; by rewrite Hu, Hl).
  rewrite last_rbrace_append by done.
  by rewrite substring_append_l, substring_append_r.
Qed.

Lemma get_ns_strip_ns_qualified_witness :
  get_ns (qualified "http://schemas.dmtf.org/ovf/envelope/1" "Envelope")
    = "http://schemas.dmtf.org/ovf/envelope/1" ∧
  strip_ns (qualified "http://schemas.dmtf.org/ovf/envelope/1" "Envelope")
    = "Envelope".
Proof.
  apply get_ns_strip_ns_qualified; reflexivity.
Defined.

Lemma last_rbrace_lookup s i :
  last_rbrace s = Some i →
  i < String.length s ∧ String.get i s = Some "}"%char ∧
  has_char "}"%char (substring (S i) (String.length s - S i) s) = false.
Proof.
  revert i. induction s as [|c s IH]; intros i; simpl; [done|].
  destruct (last_rbrace s) as [j|] eqn:E.
  - intros [= <-]. destruct (IH j eq_refl) as (Hj & Hget & Hrest).
    split; [lia|]. done.
  - destruct (Ascii.eqb_spec c "}"%char) as [->|Hne]; [|done].
    intros [= <-]. split; [lia|]. split; [done|].
    rewrite Nat.sub_0_r, substring_all. by apply last_rbrace_None.
Qed.

Lemma substring_split_get s i c :
  String.get i s = Some c →
  s = (substring 0 i s ++
       String c (substring (S i) (String.length s - S i) s))%string.
Proof.
  revert i. induction s as [|c0 s IH]; intros i; [done|].
  destruct i as [|i].
  - intros [= ->]. simpl. by rewrite Nat.sub_0_r, substring_all.
  - intros H. cbn [String.get] in H.
    change (String c0 s =
            String c0 (substring 0 i s ++
                       String c (substring (S i) (String.length s - S i) s))%string).
    f_equal. by apply IH.
Qed.

(** X2: [get_ns] and [strip_ns] split a name, and agree on whether it
    has a prefix.  When the name starts with a brace-delimited prefix
    on its first line, that line is [{get_ns}strip_ns] and [strip_ns]
    holds no closing brace; otherwise [get_ns] is empty and [strip_ns]
    is the name unchanged. *)
Theorem get_ns_strip_ns_split text_ :
  match match_ns text_ with
  | Some ns =>
      get_ns text_ = ns ∧
      line_prefix text_ = qualified ns (strip_ns text_) ∧
      has_char "}"%char (strip_ns text_) = false
  | None => get_ns text_ = "" ∧ strip_ns text_ = text_
  end.
Proof.
  unfold get_ns, strip_ns, match_ns, qualified.
  destruct text_ as [|c rest]; [done|].
  destruct (Ascii.eqb_spec c "{"%char) as [->|Hne].
  - destruct (last_rbrace (line_prefix rest)) as [i|] eqn:E; [|done].
    apply last_rbrace_lookup in E as (Hi & Hget & Hrest).
    split; [done|]. split; [|done]. simpl. f_equal.
    by apply substring_split_get.
  - destruct c as [[] [] [] [] [] [] [] []]; done.
Qed.

(** ** Lookup *)

Lemma filter_sublist_impl {A} (p1 p2 : A → bool) l :
  (∀ x, p2 x = true → p1 x = true) →
  sublist (List.filter p2 l) (List.filter p1 l).
Proof.
  intros Himp. induction l as [|x l IH]; simpl; [constructor|].
  destruct (p2 x) eqn:E2.
  - rewrite (Himp x E2). by constructor.
  - destruct (p1 x); [by constructor | done].
Qed.

Lemma find_all_children_default parent tag_ attrib_ :
  find_all_children parent tag_ (Some (default ∅ attrib_))
  = find_all_children parent tag_ attrib_.
Proof.
  unfold find_all_children. apply filter_ext. intros r.
  apply eq_true_iff_eq. rewrite !child_found_subseteq. done.
Qed.

(** X3: more attributes to match narrow the result: when the
    attributes asked for are among those of a second query (an absent
    [attrib] asks for none), every child found by the second query is
    found by the first, in the same order. *)
Theorem find_all_children_monotone parent tag_ attrib1 attrib2 :
  default ∅ attrib1 ⊆ default ∅ attrib2 →
  sublist (find_all_children parent tag_ attrib2)
          (find_all_children parent tag_ attrib1).
Proof.
  intros Hsub. unfold find_all_children. apply filter_sublist_impl.
  intros r. rewrite !child_found_subseteq. intros H. by etrans.
Qed.

Lemma find_all_children_monotone_witness :
  sublist
    (find_all_children
       (mkElement "Envelope" ∅ None None
          [mkElement "Item" {["id" := "1"]} None None [];
           mkElement "Item" {["id" := "2"]} None None []])
       (OneTag "Item") (Some {["id" := "2"]}))
    (find_all_children
       (mkElement "Envelope" ∅ None None
          [mkElement "Item" {["id" := "1"]} None None [];
           mkElement "Item" {["id" := "2"]} None None []])
       (OneTag "Item") None).
Proof.
  apply find_all_children_monotone. simpl. apply empty_subseteq_attrib.
Defined.

Lemma find_all_children_tags_app_aux parent ts1 ts2 attrib_ :
  find_all_children parent (ManyTags (ts1 ++ ts2)) attrib_
  = find_all_children parent (ManyTags ts1) attrib_ ++
    find_all_children parent (ManyTags ts2) attrib_.
Proof. rewrite !find_all_children_flat_map. simpl. apply flat_map_app. Qed.

(** X4: a list of tags is searched tag by tag: the result for a
    concatenation of two lists of tags is the concatenation of the
    results, a list of one tag gives what the tag alone gives, and an
    empty list gives nothing. *)
Theorem find_all_children_tags_app parent ts1 ts2 t attrib_ :
  find_all_children parent (ManyTags (ts1 ++ ts2)) attrib_
  = find_all_children parent (ManyTags ts1) attrib_ ++
    find_all_children parent (ManyTags ts2) attrib_ ∧
  find_all_children parent (ManyTags [t]) attrib_
  = find_all_children parent (OneTag t) attrib_ ∧
  find_all_children parent (ManyTags []) attrib_ = [].
Proof.
  split; [apply find_all_children_tags_app_aux|].
  rewrite !find_all_children_flat_map. simpl. by rewrite app_nil_r.
Qed.





(** ** Ordered insertion *)

(** X7: [add_child] never raises (the call [ordering.index] on the tag
    of the new child is reached only when the tag is in the list): it
    returns the position at which the new child now stands; the other
    children are those of before, in their order; nothing else of the
    parent changes; and the log is the log of before followed by at
    most one record. *)
Theorem add_child_total new_child ordering known_namespaces s :
  ∃ i w,
    add_child new_child ordering known_namespaces s
    = (inr i,
       mkStore
         (set_children (st_parent s)
            (take i (children (st_parent s)) ++
             new_child :: drop i (children (st_parent s))))
         (st_log s ++ w)) ∧
    i ≤ length (children (st_parent s)) ∧
    length w ≤ 1.
Proof.
  destruct (truthy ordering && mem (tag new_child) (olist ordering)) eqn:E.
  - apply andb_true_iff in E as [Ht Hmem].
    destruct ordering as [ordering|]; [|done].
    change (olist (Some ordering)) with ordering in Hmem.
    apply mem_elem_of, index_is_Some in Hmem as [n Hn].
    destruct (scan_split ordering n (children (st_parent s)))
      as (pre & rest & Hcs & Hpre & Hrest).
    exists (length pre), (rest_warning ordering known_namespaces rest).
    rewrite (add_child_ordered _ _ _ n pre rest) by done.
    rewrite Hcs, take_app_length, drop_app_length, length_app.
    split; [done|]. split; [lia|].
    destruct rest as [|c rest]; simpl; [lia|]. unfold boundary_warning.
    destruct (index ordering (tag c)); simpl; [lia|].
    destruct (in_known_namespace known_namespaces (tag c)); simpl; lia.
  - eexists _, _. rewrite add_child_append by done.
    rewrite firstn_all, drop_all. split; [done|]. split; [done|].
    destruct (truthy ordering && in_known_namespace _ _); simpl; lia.
Qed.

(** X8: without an ordering ([None] or an empty list) [add_child]
    appends the new child after the existing children and logs
    nothing, whatever [known_namespaces] is. *)
Theorem add_child_no_ordering new_child ordering known_namespaces s :
  ordering = None ∨ ordering = Some [] →
  add_child new_child ordering known_namespaces s
  = (inr (length (children (st_parent s))),
     mkStore
       (set_children (st_parent s) (children (st_parent s) ++ [new_child]))
       (st_log s)).
Proof.
  intros [-> | ->]; rewrite add_child_append by done; simpl;
    by rewrite app_nil_r.
Qed.

Lemma add_child_no_ordering_witness :
  add_child (new_Element "{urn:ovf}Custom") (Some []) (Some ["urn:ovf"])
    (mkStore Envelope_example [])
  = (inr 2,
     mkStore
       (set_children Envelope_example
          (children Envelope_example ++ [new_Element "{urn:ovf}Custom"]))
       []).
Proof.
  apply (add_child_no_ordering (new_Element "{urn:ovf}Custom") (Some [])
           (Some ["urn:ovf"]) (mkStore Envelope_example [])).
  by right.
Defined.

(** X9: the insertion point in general: when the ordering lists the
    tag of the new child at [new_index], the new child is inserted
    immediately before the first existing child that either has no tag
    of the ordering or has a tag of strictly greater index, and at the
    end when there is no such child; a warning is logged only for a
    child of the first kind at that point, when its namespace is
    known. *)
Theorem add_child_insertion_point new_child ordering known_namespaces
    new_index s :
  index ordering (tag new_child) = Some new_index →
  ∃ pre rest,
    children (st_parent s) = pre ++ rest ∧
    Forall (fun c => ∃ k, index ordering (tag c) = Some k ∧ k ≤ new_index)
           pre ∧
    match rest with
    | [] => True
    | c :: _ =>
        index ordering (tag c) = None ∨
        ∃ k, index ordering (tag c) = Some k ∧ new_index < k
    end ∧
    add_child new_child (Some ordering) known_namespaces s
    = (inr (length pre),
       mkStore (set_children (st_parent s) (pre ++ new_child :: rest))
         (st_log s ++
          match rest with
          | c :: _ =>
              if bool_decide (index ordering (tag c) = None)
                 && in_known_namespace known_namespaces (tag c)
              then [WarnExistingChild (tag c)] else []
          | [] => []
          end)).
Proof.
  intros Hidx.
  destruct (scan_split ordering new_index (children (st_parent s)))
    as (pre & rest & Hcs & Hpre & Hrest).
  exists pre, rest. split; [done|]. split; [done|]. split.
  - destruct rest as [|c rest]; [done|].
    destruct (index ordering (tag c)) as [k|] eqn:Hk; [|by left].
    right. exists k. split; [done|].
    destruct (le_lt_dec k new_index); [|done].
    exfalso. apply Hrest. by exists k.
  - rewrite (add_child_ordered _ _ _ new_index pre rest) by done.
    do 3 f_equal. destruct rest as [|c rest]; [done|]. simpl.
    unfold boundary_warning.
    by destruct (index ordering (tag c)).
Qed.

Lemma add_child_insertion_point_witness :
  ∃ pre rest,
    [new_Element "A"; new_Element "X"; new_Element "C"] = pre ++ rest ∧
    fst (add_child (new_Element "B") (Some ["A"; "B"; "C"]) None
           (mkStore (mkElement "P" ∅ None None
                       [new_Element "A"; new_Element "X"; new_Element "C"])
                    []))
    = inr (length pre).
Proof.
  destruct (add_child_insertion_point (new_Element "B") ["A"; "B"; "C"] None 1
              (mkStore (mkElement "P" ∅ None None
                          [new_Element "A"; new_Element "X"; new_Element "C"])
                       []))
    as (pre & rest & Hcs & _ & _ & Hadd).
  - reflexivity.
  - exists pre, rest. split; [exact Hcs|]. by rewrite Hadd.
Defined.

(** X10: [add_child] keeps a sorted parent sorted.  When the existing
    children stand in the order of the ordering, those with tags
    outside the ordering last, they still do after the call; the
    children are those of before and the new child; and the new child
    stands after the existing children of equal index. *)
Theorem add_child_keeps_sorted new_child ordering known_namespaces s :
  StronglySorted le
    (List.map (sort_key ordering) (children (st_parent s))) →
  ∃ i s',
    add_child new_child (Some ordering) known_namespaces s = (inr i, s') ∧
    StronglySorted le
      (List.map (sort_key ordering) (children (st_parent s'))) ∧
    children (st_parent s') ≡ₚ children (st_parent s) ++ [new_child] ∧
    ∀ k, filter (fun c => ordering_index ordering c = Some k)
                (children (st_parent s'))
         = filter (fun c => ordering_index ordering c = Some k)
                  (children (st_parent s) ++ [new_child]).
Proof.
  intros Hsorted.
  destruct (add_child_stable_sorted ordering (children (st_parent s))
              new_child known_namespaces s)
    as (i & s' & Hadd & Hs & Hp & Hf).
  { split; [done|]. split; done. }
  by exists i, s'.
Qed.

Lemma add_child_keeps_sorted_witness :
  ∃ i s',
    add_child (new_Element "References")
      (Some ["Info"; "References"; "DiskSection"]) None
      (mkStore Envelope_example []) = (inr i, s') ∧
    StronglySorted le
      (List.map (sort_key ["Info"; "References"; "DiskSection"])
                (children (st_parent s'))).
Proof.
  destruct (add_child_keeps_sorted (new_Element "References")
              ["Info"; "References"; "DiskSection"] None
              (mkStore Envelope_example []))
    as (i & s' & Hadd & Hs & _).
  - repeat constructor.
  - exists i, s'. split; [exact Hadd | exact Hs].
Defined.

Lemma add_child_same_tag c c' ordering known_namespaces known_namespaces' s :
  tag c = tag c' →
  ∃ i w w',
    add_child c ordering known_namespaces s
    = (inr i,
       mkStore
         (set_children (st_parent s)
            (take i (children (st_parent s)) ++
             c :: drop i (children (st_parent s))))
         (st_log s ++ w)) ∧
    add_child c' ordering known_namespaces' s
    = (inr i,
       mkStore
         (set_children (st_parent s)
            (take i (children (st_parent s)) ++
             c' :: drop i (children (st_parent s))))
         (st_log s ++ w')) ∧
    i ≤ length (children (st_parent s)) ∧
    (known_namespaces = known_namespaces' → w = w') ∧
    (truthy known_namespaces = false → w = []).
Proof.
  intros Htag.
  destruct (truthy ordering && mem (tag c) (olist ordering)) eqn:E.
  - apply andb_true_iff in E as [Ht Hmem].
    destruct ordering as [ordering|]; [|done].
    change (olist (Some ordering)) with ordering in Hmem.
    apply mem_elem_of, index_is_Some in Hmem as [n Hn].
    destruct (scan_split ordering n (children (st_parent s)))
      as (pre & rest & Hcs & Hpre & Hrest).
    exists (length pre), (rest_warning ordering known_namespaces rest),
           (rest_warning ordering known_namespaces' rest).
    rewrite (add_child_ordered c _ _ n pre rest) by done.
    rewrite (add_child_ordered c' _ _ n pre rest) by (by rewrite <- ?Htag).
    rewrite Hcs, take_app_length, drop_app_length, length_app.
    split; [done|]. split; [done|]. split; [lia|]. split; [by intros ->|].
    intros Hkn. destruct rest as [|x rest]; [done|]. simpl.
    unfold boundary_warning, in_known_namespace. rewrite Hkn. simpl.
    by destruct (index ordering (tag x)).
  - eexists _, _, _. rewrite !add_child_append by (by rewrite <- ?Htag).
    rewrite firstn_all, drop_all. split; [done|]. split; [done|].
    split; [done|]. rewrite <- Htag. split; [by intros ->|].
    intros Hkn. unfold in_known_namespace. rewrite Hkn. simpl.
    by rewrite andb_false_r.
Qed.

(** X11: the warnings are observations only.  The position returned
    and the tree after [add_child] do not depend on
    [known_namespaces], and nothing is logged when [known_namespaces]
    is absent or empty. *)
Theorem add_child_known_namespaces_irrelevant new_child ordering
    known_namespaces known_namespaces' s :
  let r := add_child new_child ordering known_namespaces s in
  let r' := add_child new_child ordering known_namespaces' s in
  fst r = fst r' ∧
  st_parent (snd r) = st_parent (snd r') ∧
  (truthy known_namespaces = false → st_log (snd r) = st_log s).
Proof.
  destruct (add_child_same_tag new_child new_child ordering known_namespaces
              known_namespaces' s eq_refl)
    as (i & w & w' & -> & -> & _ & _ & Hw).
  simpl. split; [done|]. split; [done|].
  intros H. by rewrite (Hw H), app_nil_r.
Qed.

(** X12: where the new child goes, and what is logged, depends on its
    tag only: two new children of the same tag are inserted at the
    same position, with the same log. *)
Theorem add_child_by_tag c c' ordering known_namespaces s :
  tag c = tag c' →
  ∃ i pre post log',
    add_child c ordering known_namespaces s
      = (inr i, mkStore (set_children (st_parent s) (pre ++ c :: post)) log') ∧
    add_child c' ordering known_namespaces s
      = (inr i, mkStore (set_children (st_parent s) (pre ++ c' :: post)) log') ∧
    children (st_parent s) = pre ++ post ∧ length pre = i.
Proof.
  intros Htag.
  destruct (add_child_same_tag c c' ordering known_namespaces
              known_namespaces s Htag)
    as (i & w & w' & Hc & Hc' & Hi & Hw & _).
  rewrite <- (Hw eq_refl) in Hc'.
  exists i, (take i (children (st_parent s))),
         (drop i (children (st_parent s))), (st_log s ++ w).
  split; [done|]. split; [done|]. split; [by rewrite take_drop|].
  rewrite length_take. lia.
Qed.

Lemma add_child_by_tag_witness :
  ∃ i pre post log',
    add_child (mkElement "References" ∅ (Some "text") None [])
      (Some ["Info"; "References"; "DiskSection"]) None
      (mkStore Envelope_example [])
    = (inr i,
       mkStore (set_children Envelope_example
                  (pre ++ mkElement "References" ∅ (Some "text") None []
                       :: post)) log') ∧
    length pre = i.
Proof.
  destruct (add_child_by_tag (new_Element "References")
              (mkElement "References" ∅ (Some "text") None [])
              (Some ["Info"; "References"; "DiskSection"]) None
              (mkStore Envelope_example []) eq_refl)
    as (i & pre & post & log' & _ & Hadd & _ & Hlen).
  exists i, pre, post, log'. split; [exact Hadd | exact Hlen].
Defined.

Lemma add_child_known_namespaces_irrelevant_witness :
  st_log (snd (add_child (new_Element "{urn:ovf}Custom") (Some ["Info"])
                 (Some []) (mkStore Envelope_example [])))
  = [].
Proof.
  apply (add_child_known_namespaces_irrelevant (new_Element "{urn:ovf}Custom")
           (Some ["Info"]) (Some []) None (mkStore Envelope_example [])).
  reflexivity.
Defined.

(** ** Find-or-create update *)

Lemma set_children_set_children p cs cs' :
  set_children (set_children p cs) cs' = set_children p cs'.
Proof. done. Qed.









(** X16: what [set_or_make_child] returns can be looked up again: for
    a tag that is a plain name, after a call that returned,
    [find_child] with the same tag and attributes, required or not,
    returns the child at the position returned; that child has the
    tag, the attributes asked for, and the text given if one was
    given. *)
Theorem set_or_make_child_then_find_child tag_ text_ attrib_ ordering
    known_namespaces s required :
  plain_tag tag_ = true →
  ∃ call,
    set_or_make_child_path tag_ text_ attrib_ ordering known_namespaces
      = Some call ∧
    ∀ i s', call s = (inr i, s') →
      ∃ e,
        find_child_path (st_parent s') (OneTag tag_) attrib_ required
          = Some (inr (Some (i, e))) ∧
        children (st_parent s') !! i = Some e ∧
        tag e = tag_ ∧
        default ∅ attrib_ ⊆ attrib e ∧
        (∀ t, text_ = Some t → text e = Some t).
Proof.
  intros Hplain.
  exists (set_or_make_child tag_ text_ attrib_ ordering known_namespaces).
  split; [by apply set_or_make_child_path_plain|].
  intros i s' Hrun.
  destruct (set_or_make_child_outcome tag_ text_ attrib_ ordering
              known_namespaces s)
    as [Hraise | (pre & e & post & w & Hrun' & Hpre & He & Hpost & Htext)].
  { rewrite Hraise in Hrun. done. }
  rewrite Hrun' in Hrun. injection Hrun as <- <-. exists e. simpl.
  split; [|split; [|split; [|split]]].
  - rewrite find_child_path_plain by by apply plain_tag_tags.
    f_equal.
    rewrite find_child_cases, <- find_all_children_default.
    rewrite find_all_children_one. simpl.
    by rewrite (selected_one _ 0 pre e post).
  - by rewrite list_lookup_middle.
  - by apply child_selected_spec in He as [? _].
  - by apply child_selected_spec in He as [_ ?].
  - intros t ->. simpl in Htext. by rewrite <- Htext.
Qed.

Lemma set_or_make_child_then_find_child_witness :
  ∃ call e,
    set_or_make_child_path "Item" (Some "5") (Some {["id" := "1"]})
      None None = Some call ∧
    find_child_path
      (st_parent (snd (call (mkStore Envelope_example []))))
      (OneTag "Item") (Some {["id" := "1"]}) true
    = Some (inr (Some (2, e))) ∧
    text e = Some "5".
Proof.
  destruct (set_or_make_child_then_find_child "Item" (Some "5")
              (Some {["id" := "1"]}) None None (mkStore Envelope_example [])
              true)
    as (call & Hcall & Hfind); [reflexivity|].
  destruct (Hfind 2 (snd (call (mkStore Envelope_example []))))
    as (e & Hfound & _ & _ & _ & Htext).
  { rewrite set_or_make_child_path_plain in Hcall by reflexivity.
    injection Hcall as <-. reflexivity. }
  exists call, e. split; [exact Hcall|]. split; [exact Hfound|].
  by apply Htext.
Defined.

(** ** Re-indentation *)

Lemma skeleton_children_nil e e' :
  skeleton e = skeleton e' → children e = [] → children e' = [].
Proof.
  destruct e as [tg at_ tx tl ch], e' as [tg' at' tx' tl' ch']. simpl.
  intros [= _ _ _ Hch] ->. by destruct ch'.
Qed.

(** The result of the re-indentation is a function of the structure
    of the tree, of the tail it starts from and of the depth. *)
Lemma reindent_from_skeleton e : ∀ e' tl depth,
  skeleton e = skeleton e' →
  reindent_from tl e depth = reindent_from tl e' depth.
Proof.
  induction e as [tg at_ tx tl0 ch IH] using Element_tree_ind.
  intros [tg' at' tx' tl0' ch'] tl depth Hsk.
  cbn [skeleton] in Hsk. injection Hsk as <- <- Htx Hch.
  destruct ch as [|c ch], ch' as [|c' ch']; try done.
  - by subst.
  - rewrite !reindent_from_cons. do 2 f_equal.
    revert Hch IH. generalize (c :: ch) (c' :: ch'). clear.
    intros l. induction l as [|x l IHl]; intros [|x' l'] Hl IH; try done.
    cbn [List.map] in *. injection Hl as Hx Hl.
    apply Forall_cons in IH as [IHx IH]. f_equal; [by apply IHx|].
    by apply IHl.
Qed.

Lemma reindent_from_own_tail tl e depth :
  reindent_from (tail (reindent_from tl e depth)) e depth
  = reindent_from tl e depth.
Proof.
  destruct e as [tg at_ tx tl0 [|c ch]].
  - rewrite !reindent_from_nil. simpl. by destruct (depth + 2 =? 0)%Z.
  - rewrite !reindent_from_cons. simpl. by destruct (depth =? 0)%Z.
Qed.

(** X17: the result of [xml_reindent] does not depend on the
    whitespace that was there: two trees with the same tags,
    attributes, children and text of childless elements, and the same
    tail at the root, are re-indented to the same tree. *)
Theorem xml_reindent_by_structure e e' depth :
  skeleton e = skeleton e' → tail e = tail e' →
  xml_reindent e depth = xml_reindent e' depth.
Proof.
  intros Hsk Htl. unfold xml_reindent. rewrite Htl.
  by apply reindent_from_skeleton.
Qed.

Lemma xml_reindent_by_structure_witness :
  xml_reindent
    (mkElement "Envelope" ∅ (Some "  ") None
       [mkElement "Info" ∅ (Some "text") (Some " ") []]) 0
  = xml_reindent
      (mkElement "Envelope" ∅ None None
         [mkElement "Info" ∅ (Some "text") None []]) 0.
Proof.
  apply xml_reindent_by_structure; reflexivity.
Defined.

(** X18: [xml_reindent] is idempotent: re-indenting a re-indented
    tree at the same depth changes nothing. *)
Theorem xml_reindent_idempotent e depth :
  xml_reindent (xml_reindent e depth) depth = xml_reindent e depth.
Proof.
  unfold xml_reindent.
  rewrite (reindent_from_skeleton (reindent_from (tail e) e depth) e)
    by apply skeleton_reindent_from.
  apply reindent_from_own_tail.
Qed.

(** X19: the indentation [xml_reindent] produces.  From a depth that
    is not negative, in every element with children each child is
    preceded by a newline and two spaces more than its parent, and the
    end tag of the element by a newline and the spaces of the element
    itself; and at depth 0 the tail of the root is the newline when
    the root has children, and what it was when it has none. *)
Theorem xml_reindent_indentation root depth :
  ((0 ≤ depth)%Z → indented depth (xml_reindent root depth) = true) ∧
  tail (xml_reindent root 0)
  = match children root with
    | [] => tail root
    | _ :: _ => Some newline
    end.
Proof.
  split.
  - intros Hd. by apply indented_reindent_from.
  - destruct (children root) as [|c ch] eqn:E.
    + by rewrite xml_reindent_childless.
    + apply xml_reindent_root_tail. by rewrite E.
Qed.

Lemma xml_reindent_indentation_witness :
  indented 0 (xml_reindent document_example 0) = true.
Proof.
  apply (proj1 (xml_reindent_indentation document_example 0)). lia.
Defined.

Lemma no_mixed_content_set_last_tail cs s :
  blank s = true →
  forallb no_mixed_content cs = true →
  forallb no_mixed_content (set_last_tail cs s) = true.
Proof.
  intros Hs. induction cs as [|x [|y cs] IH]; intros Hcs; [done| |].
  - cbn [set_last_tail forallb] in *. destruct x as [tg at_ tx tl ch].
    cbn [set_tail no_mixed_content tag attrib text tail children] in *.
    rewrite Hs. apply andb_true_iff in Hcs as [Hx _].
    apply andb_true_iff in Hx as [Hx Hch].
    apply andb_true_iff in Hx as [Htx _].
    by rewrite Htx, Hch.
  - change (set_last_tail (x :: y :: cs) s)
      with (x :: set_last_tail (y :: cs) s).
    cbn [forallb] in *. apply andb_true_iff in Hcs as [Hx Hcs].
    by rewrite Hx, IH.
Qed.

Lemma no_mixed_content_reindent_from e : ∀ tl depth,
  blank tl = true → no_mixed_content (reindent_from tl e depth) = true.
Proof.
  induction e as [tg at_ tx tl0 ch IH] using Element_tree_ind.
  intros tl depth Htl. destruct ch as [|c ch].
  - rewrite reindent_from_nil. cbn [no_mixed_content forallb].
    by destruct (depth + 2 =? 0)%Z; rewrite ?Htl.
  - rewrite reindent_from_cons.
    set (R := fun elem =>
           reindent_from (Some (indent (depth + 2))) elem (depth + 2)%Z).
    destruct (set_last_tail_cons (R c) (List.map R ch) (Some (indent depth)))
      as (y & cs' & E).
    cbn [no_mixed_content List.map]. fold R. rewrite E, <- E.
    rewrite blank_indent.
    assert (blank (if (depth =? 0)%Z then Some newline else tl) = true) as ->
      by (by destruct (depth =? 0)%Z).
    apply no_mixed_content_set_last_tail; [apply blank_indent|].
    change (R c :: List.map R ch) with (List.map R (c :: ch)).
    apply forallb_forall. intros x Hx.
    apply in_map_iff in Hx as (x0 & <- & Hx0).
    rewrite List.Forall_forall in IH. apply IH; [done | apply blank_indent].
Qed.

(** X20: [xml_reindent] leaves whitespace only between elements:
    the text of every element with children and the tail of every
    child are overwritten, so the re-indented tree has no mixed
    content (given that the tail of the root held nothing but
    whitespace). *)
Theorem xml_reindent_no_mixed_content e depth :
  blank (tail e) = true →
  no_mixed_content (xml_reindent e depth) = true.
Proof. intros H. by apply no_mixed_content_reindent_from. Qed.

Lemma xml_reindent_no_mixed_content_witness :
  no_mixed_content
    (xml_reindent
       (mkElement "p" ∅ (Some "mixed ") None
          [mkElement "b" ∅ (Some "bold") (Some " content") []]) 0)
  = true.
Proof. apply xml_reindent_no_mixed_content. reflexivity. Defined.

Lemma child_selected_skeleton t attrib_ e :
  child_selected t attrib_ (skeleton e) = child_selected t attrib_ e.
Proof.
  apply eq_true_iff_eq. rewrite !child_selected_spec.
  unfold matches_query. by destruct e.
Qed.

Lemma selected_positions_skeleton (q : Element → bool) cs cs' k :
  (∀ e, q (skeleton e) = q e) →
  List.map skeleton cs = List.map skeleton cs' →
  List.map fst (List.filter (fun r => q (snd r)) (refs_from k cs))
  = List.map fst (List.filter (fun r => q (snd r)) (refs_from k cs')).
Proof.
  intros Hq. revert cs' k.
  induction cs as [|x cs IH]; intros [|x' cs'] k Hmap; try done.
  cbn [List.map] in Hmap. injection Hmap as Hx Hmap.
  rewrite !refs_from_cons. simpl.
  rewrite <- (Hq x), <- (Hq x'), Hx.
  destruct (q (skeleton x')); simpl; [f_equal|]; by apply IH.
Qed.

(** X21: re-indentation does not change what the lookups find: for
    tags that are plain names [find_all_children] finds children at
    the same positions, in the same order, before and after
    [xml_reindent] of the parent. *)
Theorem find_all_children_after_xml_reindent parent depth tag_ attrib_ :
  forallb plain_tag (tags_of tag_) = true →
  ∃ before after,
    find_all_children_path parent tag_ attrib_ = Some before ∧
    find_all_children_path (xml_reindent parent depth) tag_ attrib_
      = Some after ∧
    List.map fst after = List.map fst before.
Proof.
  intros Hplain.
  exists (find_all_children parent tag_ attrib_),
         (find_all_children (xml_reindent parent depth) tag_ attrib_).
  split; [by apply find_all_children_path_plain|].
  split; [by apply find_all_children_path_plain|].
  assert (Hch : List.map skeleton (children (xml_reindent parent depth))
                = List.map skeleton (children parent)).
  { pose proof (skeleton_reindent_from parent (tail parent) depth) as H.
    fold (xml_reindent parent depth) in H.
    destruct (xml_reindent parent depth), parent. simpl in *.
    by injection H. }
  rewrite !find_all_children_flat_map.
  induction (tags_of tag_) as [|t ts IH]; [done|].
  cbn [forallb] in Hplain. apply andb_prop in Hplain as [_ Hts].
  cbn [flat_map]. rewrite !List.map_app, (IH Hts). f_equal.
  pose proof (find_all_children_one (xml_reindent parent depth) t attrib_) as H1.
  pose proof (find_all_children_one parent t attrib_) as H2.
  rewrite find_all_children_flat_map in H1, H2. simpl in H1, H2.
  rewrite app_nil_r in H1, H2. rewrite H1, H2.
  apply selected_positions_skeleton; [|done].
  intros e. apply child_selected_skeleton.
Qed.

Lemma find_all_children_after_xml_reindent_witness :
  ∃ after,
    find_all_children_path (xml_reindent Envelope_example 0)
      (OneTag "DiskSection") None = Some after ∧
    List.map fst after = [1].
Proof.
  destruct (find_all_children_after_xml_reindent Envelope_example 0
              (OneTag "DiskSection") None)
    as (before & after & Hbefore & Hafter & Hsame); [reflexivity|].
  exists after. split; [exact Hafter|].
  rewrite Hsame. injection Hbefore as <-. reflexivity.
Defined.

(** X22: a child added is there to be found: after [add_child] the
    new child stands at the position returned; when its tag is a plain
    name it is found there by [find_all_children] for its own tag and
    attributes; and every child found before the call by a query for
    plain names is still found, one position further if it stood at or
    after the insertion point. *)
Theorem add_child_then_find_all_children new_child ordering known_namespaces
    s i s' :
  add_child new_child ordering known_namespaces s = (inr i, s') →
  children (st_parent s') !! i = Some new_child ∧
  (plain_tag (tag new_child) = true →
   ∃ found,
     find_all_children_path (st_parent s') (OneTag (tag new_child))
       (Some (attrib new_child)) = Some found ∧
     (i, new_child) ∈ found) ∧
  ∀ tag_ attrib_,
    forallb plain_tag (tags_of tag_) = true →
    ∃ before after,
      find_all_children_path (st_parent s) tag_ attrib_ = Some before ∧
      find_all_children_path (st_parent s') tag_ attrib_ = Some after ∧
      ∀ j e, (j, e) ∈ before →
             ((if decide (j < i) then j else S j), e) ∈ after.
Proof.
  intros Hadd.
  destruct (add_child_inserts new_child ordering known_namespaces s)
    as (i' & w & Hi & Hadd').
  rewrite Hadd' in Hadd. injection Hadd as <- <-. simpl.
  assert (Hlen : length (take i' (children (st_parent s))) = i')
    by (rewrite length_take; lia).
  assert (Hnew : (take i' (children (st_parent s)) ++
                  new_child :: drop i' (children (st_parent s))) !! i'
                 = Some new_child).
  { rewrite <- Hlen at 3. apply list_lookup_middle. done. }
  split; [done|]. split.
  - intros Hplain. eexists.
    split; [by apply find_all_children_path_plain, plain_tag_tags|].
    apply elem_of_find_all_children. split; [done|].
    exists (tag new_child). split; [left | done].
  - intros tag_ attrib_ Hplain. eexists _, _.
    split; [by apply find_all_children_path_plain|].
    split; [by apply find_all_children_path_plain|].
    intros j e Hin.
    apply elem_of_find_all_children in Hin as [Hj Hm].
    apply elem_of_find_all_children. split; [|done]. simpl.
    destruct (decide (j < i')) as [Hlt|Hge].
    + rewrite lookup_app_l by lia. by rewrite lookup_take_lt.
    + rewrite lookup_app_r by lia. rewrite Hlen.
      replace (S j - i') with (S (j - i')) by lia. simpl.
      rewrite lookup_drop. by replace (i' + (j - i')) with j by lia.
Qed.

Lemma add_child_then_find_all_children_witness :
  ∃ found,
    find_all_children_path
      (st_parent (snd (add_child (new_Element "References")
                         (Some ["Info"; "References"; "DiskSection"]) None
                         (mkStore Envelope_example []))))
      (OneTag "References") (Some ∅) = Some found ∧
    (1, new_Element "References") ∈ found.
Proof.
  apply (add_child_then_find_all_children (new_Element "References")
           (Some ["Info"; "References"; "DiskSection"]) None
           (mkStore Envelope_example []) 1
           (snd (add_child (new_Element "References")
                   (Some ["Info"; "References"; "DiskSection"]) None
                   (mkStore Envelope_example [])))).
  - reflexivity.
  - reflexivity.
Defined.

(** ** [vmdktool.py] *)

Lemma rindex_None c s : rindex c s = None ↔ has_char c s = false.
Proof.
  induction s as [|c' s IH]; simpl; [done|].
  destruct (rindex c s) as [i|].
  - split; [done|]. intros H. apply orb_false_iff in H as [_ H].
    by apply IH in H.
  - destruct (Ascii.eqb c' c); simpl; [done|]. split; [|done].
    intros _. by apply IH.
Qed.

Lemma rindex_append c s1 s2 :
  has_char c s2 = false →
  rindex c (s1 ++ String c s2)%string = Some (String.length s1).
Proof.
  intros H2. apply rindex_None in H2.
  induction s1 as [|c1 s1 IH]; simpl.
  - by rewrite H2, Ascii.eqb_refl.
  - by rewrite IH.
Qed.

Lemma slice_from_append s1 s2 :
  slice_from (String.length s1) (s1 ++ s2)%string = s2.
Proof. induction s1 as [|c s1 IH]; simpl; [by destruct s2 | done]. Qed.

Lemma slice_to_append s1 s2 :
  slice_to (String.length s1) (s1 ++ s2)%string = s1.
Proof.
  induction s1 as [|c s1 IH]; simpl; [by destruct s2 | by rewrite IH].
Qed.

Lemma append_String c s1 s2 :
  (String c s1 ++ s2)%string = String c (s1 ++ s2)%string.
Proof. reflexivity. Qed.

Lemma append_empty_r s : (s ++ "")%string = s.
Proof. induction s as [|c s IH]; [done|]. by rewrite append_String, IH. Qed.

Lemma slice_to_from n s : (slice_to n s ++ slice_from n s)%string = s.
Proof.
  revert s. induction n as [|n IH]; intros [|c s]; try done.
  cbn [slice_to slice_from]. by rewrite append_String, IH.
Qed.

Lemma has_char_slice_to c n s :
  has_char c s = false → has_char c (slice_to n s) = false.
Proof.
  revert s. induction n as [|n IH]; intros [|c' s]; simpl; try done.
  intros H. apply orb_false_iff in H as [-> H]. by apply IH.
Qed.

Lemma has_char_slice_from c n s :
  has_char c s = false → has_char c (slice_from n s) = false.
Proof.
  revert s. induction n as [|n IH]; intros [|c' s]; simpl; try done.
  intros H. apply orb_false_iff in H as [_ H]. by apply IH.
Qed.

Lemma basename_no_slash p : has_char "/"%char (basename p) = false.
Proof.
  unfold basename, rfind.
  destruct (rindex "/"%char p) as [i|] eqn:E.
  - replace (Z.to_nat (Z.of_nat i + 1)) with (S i) by lia.
    revert i E. induction p as [|c p IH]; intros i; simpl; [done|].
    destruct (rindex "/"%char p) as [j|] eqn:Ej.
    + intros [= <-]. by apply IH.
    + destruct (Ascii.eqb c "/"%char); [|done]. intros [= <-]. simpl.
      destruct p; [done|]. by apply rindex_None.
  - simpl. by apply rindex_None.
Qed.

Lemma basename_slash_free n : has_char "/"%char n = false → basename n = n.
Proof.
  intros H. apply rindex_None in H. unfold basename, rfind. by rewrite H.
Qed.

Lemma slice_from_S_append a c n :
  slice_from (S (String.length a)) (a ++ String c n)%string = n.
Proof. induction a as [|c' a IH]; [done|]. exact IH. Qed.

Lemma basename_append a n :
  has_char "/"%char n = false → basename (a ++ String "/"%char n)%string = n.
Proof.
  intros H. unfold basename, rfind. rewrite rindex_append by done.
  replace (Z.to_nat (Z.of_nat (String.length a) + 1))
    with (S (String.length a)) by lia.
  apply slice_from_S_append.
Qed.

Lemma splitext_append p : (fst (splitext p) ++ snd (splitext p))%string = p.
Proof.
  unfold splitext.
  destruct (rfind "/"%char p <? rfind "."%char p)%Z; simpl.
  - destruct (existsb _ _); simpl.
    + apply slice_to_from.
    + apply append_empty_r.
  - apply append_empty_r.
Qed.

Lemma splitext_no_slash n :
  has_char "/"%char n = false → has_char "/"%char (fst (splitext n)) = false.
Proof.
  intros H. unfold splitext.
  destruct (rfind "/"%char n <? rfind "."%char n)%Z; simpl; [|done].
  destruct (existsb _ _); simpl; [|done]. by apply has_char_slice_to.
Qed.

Lemma splitext_no_dot n :
  has_char "."%char n = false → splitext n = (n, EmptyString).
Proof.
  intros H. apply rindex_None in H. unfold splitext, rfind. rewrite H.
  destruct (rindex "/"%char n) as [i|]; simpl.
  - by destruct (Z.ltb_spec (Z.of_nat i) (-1)); [lia|].
  - done.
Qed.

(** A name with a character other than a dot. *)
Lemma splitext_stem_ext stem ext :
  has_char "/"%char stem = false →
  has_char "/"%char ext = false →
  has_char "."%char ext = false →
  existsb (fun c => negb (Ascii.eqb c "."%char)) (list_ascii_of_string stem)
    = true →
  splitext (stem ++ String "."%char ext)%string = (stem, String "."%char ext).
Proof.
  intros Hs He Hd Hstem. unfold splitext, rfind.
  rewrite (rindex_append "."%char stem ext Hd).
  assert (rindex "/"%char (stem ++ String "."%char ext)%string = None) as ->.
  { apply rindex_None. rewrite has_char_append. simpl. by rewrite Hs, He. }
  destruct (Z.ltb_spec (-1) (Z.of_nat (String.length stem))); [|lia].
  rewrite Nat2Z.id. change (Z.to_nat (-1 + 1)) with 0.
  rewrite slice_to_append. cbn [slice_from]. rewrite Hstem.
  by rewrite slice_from_append.
Qed.

Lemma join_slash_free od name :
  startswith_slash name = false →
  join od name
  = (od ++ (if String.eqb od "" || endswith_slash od then "" else "/")
        ++ name)%string.
Proof.
  intros H. unfold join. rewrite H.
  by destruct (String.eqb od "" || endswith_slash od).
Qed.

Lemma startswith_slash_has_char s :
  has_char "/"%char s = false → startswith_slash s = false.
Proof. destruct s as [|c s]; simpl; [done|]. by intros [? _]%orb_false_iff. Qed.

Lemma endswith_slash_append a :
  endswith_slash a = true → ∃ a', a = (a' ++ "/")%string.
Proof.
  induction a as [|c a IH]; [done|]. simpl.
  destruct a as [|c' a].
  - intros H. apply Ascii.eqb_eq in H as ->. by exists EmptyString.
  - intros H. destruct (IH H) as (a' & ->). by exists (String c a').
Qed.

Lemma append_assoc s1 s2 s3 :
  ((s1 ++ s2) ++ s3)%string = (s1 ++ (s2 ++ s3))%string.
Proof.
  induction s1 as [|c s1 IH]; [done|]. by rewrite !append_String, IH.
Qed.

Lemma basename_join od name :
  has_char "/"%char name = false → basename (join od name) = name.
Proof.
  intros H. rewrite join_slash_free by by apply startswith_slash_has_char.
  destruct (String.eqb_spec od "") as [->|Hne]; simpl.
  - by apply basename_slash_free.
  - destruct (endswith_slash od) eqn:E; simpl.
    + apply endswith_slash_append in E as (a & ->).
      rewrite append_assoc. simpl. by apply basename_append.
    + by apply basename_append.
Qed.

(** X23: [convert_disk_image] supports one target only: for any
    format and subformat other than [vmdk] and [streamOptimized] it
    raises [NotImplementedError] and does not run the tool. *)
Theorem convert_disk_image_unsupported helper_output file_path output_dir
    new_format new_subformat w :
  ¬ (new_format = "vmdk" ∧ new_subformat = Some "streamOptimized") →
  convert_disk_image helper_output file_path output_dir new_format
    new_subformat w
  = (inl NotImplementedError, w).
Proof.
  intros Hnot. unfold convert_disk_image.
  destruct (splitext (basename file_path)) as [file_string file_extension].
  destruct (String.eqb_spec new_format "vmdk") as [->|Hne]; simpl; [|done].
  case_bool_decide as Hsub; [|done]. exfalso. by apply Hnot.
Qed.

Lemma convert_disk_image_unsupported_witness :
  convert_disk_image (fun _ => Some "") "disk.img" "out" "vmdk" None []
  = (inl NotImplementedError, []).
Proof.
  apply convert_disk_image_unsupported. by intros [_ ?].
Defined.

(** The conversion to a stream-optimized VMDK, by the name of the
    output file. *)
Lemma convert_disk_image_vmdk helper_output file_path output_dir w :
  convert_disk_image helper_output file_path output_dir "vmdk"
    (Some "streamOptimized") w
  = let new_file_path :=
      join output_dir (fst (splitext (basename file_path)) ++ ".vmdk")%string in
    (match helper_output ["-z9"; "-v"; new_file_path; file_path] with
     | Some _ => inr new_file_path
     | None => inl HelperError
     end,
     w ++ [["-z9"; "-v"; new_file_path; file_path]]).
Proof.
  unfold convert_disk_image, call_helper.
  destruct (splitext (basename file_path)) as [file_string file_extension].
  simpl. by destruct (helper_output _).
Qed.

(** X24: where the converted image goes.  For the supported target
    the tool is run exactly once, with the output file before the
    input file; the output file stands directly in [output_dir]
    whatever the directory of the input: its path is [output_dir], a
    slash unless [output_dir] is empty or ends with one, and a name
    without slash that ends in [.vmdk]; the path is returned when the
    run succeeds, and the failure of the run is raised otherwise. *)
Theorem convert_disk_image_output helper_output file_path output_dir w :
  ∃ stem new_file_path,
    has_char "/"%char stem = false ∧
    new_file_path
    = (output_dir ++
       (if String.eqb output_dir "" || endswith_slash output_dir
        then "" else "/") ++ stem ++ ".vmdk")%string ∧
    convert_disk_image helper_output file_path output_dir "vmdk"
      (Some "streamOptimized") w
    = (match helper_output ["-z9"; "-v"; new_file_path; file_path] with
       | Some _ => inr new_file_path
       | None => inl HelperError
       end,
       w ++ [["-z9"; "-v"; new_file_path; file_path]]).
Proof.
  set (stem := fst (splitext (basename file_path))).
  assert (Hstem : has_char "/"%char stem = false)
    by apply splitext_no_slash, basename_no_slash.
  exists stem, (join output_dir (stem ++ ".vmdk")%string).
  split; [done|]. split.
  - apply join_slash_free, startswith_slash_has_char.
    rewrite has_char_append. by rewrite Hstem.
  - apply convert_disk_image_vmdk.
Qed.

(** X25: the name of the converted image.  When the base name of the
    input is [stem.ext] (with a stem that is not made of dots only, and
    no dot in [ext]) the output is [stem.vmdk] in [output_dir]: the
    extension is replaced.  When the base name has no dot, [.vmdk] is
    added to it. *)
Theorem convert_disk_image_name helper_output file_path output_dir w :
  (∀ stem ext,
     basename file_path = (stem ++ String "."%char ext)%string →
     has_char "."%char ext = false →
     existsb (fun c => negb (Ascii.eqb c "."%char))
             (list_ascii_of_string stem) = true →
     snd (convert_disk_image helper_output file_path output_dir "vmdk"
            (Some "streamOptimized") w)
     = w ++ [["-z9"; "-v"; join output_dir (stem ++ ".vmdk")%string;
              file_path]]) ∧
  (has_char "."%char (basename file_path) = false →
   snd (convert_disk_image helper_output file_path output_dir "vmdk"
          (Some "streamOptimized") w)
   = w ++ [["-z9"; "-v";
            join output_dir (basename file_path ++ ".vmdk")%string;
            file_path]]).
Proof.
  rewrite convert_disk_image_vmdk. cbv zeta. cbn [snd]. split.
  - intros stem ext Hbase Hext Hstem.
    pose proof (basename_no_slash file_path) as Hslash.
    rewrite Hbase, has_char_append in Hslash.
    apply orb_false_iff in Hslash as [Hs He]. simpl in He.
    by rewrite Hbase, splitext_stem_ext.
  - intros Hdot. by rewrite splitext_no_dot.
Qed.

Lemma convert_disk_image_name_witness :
  snd (convert_disk_image (fun _ => Some "") "images/input.img" "/tmp/out"
         "vmdk" (Some "streamOptimized") [])
  = [["-z9"; "-v"; "/tmp/out/input.vmdk"; "images/input.img"]] ∧
  snd (convert_disk_image (fun _ => Some "") "images/input" "/tmp/out"
         "vmdk" (Some "streamOptimized") [])
  = [["-z9"; "-v"; "/tmp/out/input.vmdk"; "images/input"]].
Proof.
  split.
  - apply (proj1 (convert_disk_image_name (fun _ => Some "")
                    "images/input.img" "/tmp/out" []) "input" "img");
      reflexivity.
  - apply (proj2 (convert_disk_image_name (fun _ => Some "")
                    "images/input" "/tmp/out" []));
      reflexivity.
Defined.

(** X26: an image that already is [stem.vmdk] in [output_dir] is
    converted onto itself: the tool is still run, with one and the
    same path as its output file and its input file, and that path is
    returned. *)
Theorem convert_disk_image_in_place helper_output output_dir stem w :
  has_char "/"%char stem = false →
  existsb (fun c => negb (Ascii.eqb c "."%char))
          (list_ascii_of_string stem) = true →
  let file_path := join output_dir (stem ++ ".vmdk")%string in
  convert_disk_image helper_output file_path output_dir "vmdk"
    (Some "streamOptimized") w
  = (match helper_output ["-z9"; "-v"; file_path; file_path] with
     | Some _ => inr file_path
     | None => inl HelperError
     end,
     w ++ [["-z9"; "-v"; file_path; file_path]]).
Proof.
  intros Hslash Hstem file_path. subst file_path.
  rewrite convert_disk_image_vmdk. cbv zeta.
  rewrite basename_join by (rewrite has_char_append; by rewrite Hslash).
  by rewrite (splitext_stem_ext stem "vmdk").
Qed.

Lemma convert_disk_image_in_place_witness :
  convert_disk_image (fun _ => Some "") "out/disk.vmdk" "out" "vmdk"
    (Some "streamOptimized") []
  = (inr "out/disk.vmdk", [["-z9"; "-v"; "out/disk.vmdk"; "out/disk.vmdk"]]).
Proof.
  apply (convert_disk_image_in_place (fun _ => Some "") "out" "disk" []);
    reflexivity.
Defined.

Lemma strip_prefix_append pre s : strip_prefix pre (pre ++ s)%string = Some s.
Proof.
  induction pre as [|c pre IH]; [by destruct s|].
  rewrite append_String. cbn [strip_prefix]. by rewrite Ascii.eqb_refl.
Qed.

Lemma strip_prefix_Some pre s rest :
  strip_prefix pre s = Some rest → s = (pre ++ rest)%string.
Proof.
  revert s. induction pre as [|c pre IH]; intros s; simpl.
  - by intros [= ->].
  - destruct s as [|c' s]; [done|].
    destruct (Ascii.eqb_spec c c') as [->|]; [|done].
    intros H. by rewrite (IH s H).
Qed.

Lemma take_chars_append p v rest :
  forallb p (list_ascii_of_string v) = true →
  take_chars p rest = EmptyString →
  take_chars p (v ++ rest)%string = v.
Proof.
  intros Hv Hrest. induction v as [|c v IH]; [done|].
  simpl in Hv. apply andb_true_iff in Hv as [Hc Hv].
  rewrite append_String. cbn [take_chars]. by rewrite Hc, IH.
Qed.

(** No match of the pattern starts in a text without the letter v. *)
Lemma search_version_skip pre s :
  has_char "v"%char pre = false →
  search_version (pre ++ s)%string = search_version s.
Proof.
  intros Hpre. induction pre as [|c pre IH]; [done|].
  simpl in Hpre. apply orb_false_iff in Hpre as [Hc Hpre].
  rewrite append_String. cbn [search_version strip_prefix].
  rewrite Ascii.eqb_sym, Hc. by apply IH.
Qed.

Lemma search_version_here v rest :
  nonempty v = true →
  forallb is_version_char (list_ascii_of_string v) = true →
  take_chars is_version_char rest = EmptyString →
  search_version ("vmdktool version " ++ v ++ rest)%string = Some v.
Proof.
  intros Hne Hv Hrest.
  assert (Hhere : strip_prefix "vmdktool version "
                    ("vmdktool version " ++ v ++ rest)%string
                  = Some (v ++ rest)%string) by apply strip_prefix_append.
  destruct ("vmdktool version " ++ v ++ rest)%string as [|c s] eqn:E;
    [done|].
  cbn [search_version]. rewrite Hhere, take_chars_append by done.
  by destruct v.
Qed.

Lemma search_version_None s :
  (∀ pre rest, s = (pre ++ "vmdktool version " ++ rest)%string →
               take_chars is_version_char rest = EmptyString) →
  search_version s = None.
Proof.
  induction s as [|c s IH]; intros Hno.
  - reflexivity.
  - assert (Hs : search_version s = None).
    { apply IH. intros pre rest ->.
      apply (Hno (String c pre) rest). by rewrite append_String. }
    cbn [search_version].
    destruct (strip_prefix "vmdktool version " (String c s)) as [rest|] eqn:E;
      [|exact Hs].
    apply strip_prefix_Some in E.
    rewrite (Hno EmptyString rest E). exact Hs.
Qed.

(** X27: when the output of [vmdktool -V] holds no text
    "vmdktool version " that is followed by a digit or a dot, the
    search finds nothing and [_get_version] raises [AttributeError];
    the tool was run once, with [-V]. *)
Theorem get_version_no_version helper_output output w :
  helper_output ["-V"] = Some output →
  (∀ pre rest, output = (pre ++ "vmdktool version " ++ rest)%string →
               take_chars is_version_char rest = EmptyString) →
  _get_version helper_output w = (inl AttributeError, w ++ [["-V"]]).
Proof.
  intros Hout Hno. unfold _get_version, call_helper. rewrite Hout.
  by rewrite search_version_None.
Qed.

Lemma get_version_no_version_witness :
  _get_version (fun _ => Some "") [] = (inl AttributeError, [["-V"]]).
Proof.
  apply (get_version_no_version (fun _ => Some "") "" []); [reflexivity|].
  intros [|c pre] rest H; discriminate H.
Defined.

(** The version is read at the leftmost match, as far as digits and
    dots go. *)
Lemma get_version_reads helper_output pre v rest w :
  helper_output ["-V"]
    = Some (pre ++ "vmdktool version " ++ v ++ rest)%string →
  has_char "v"%char pre = false →
  nonempty v = true →
  forallb is_version_char (list_ascii_of_string v) = true →
  take_chars is_version_char rest = EmptyString →
  _get_version helper_output w
  = (match StrictVersion v with
     | Some version => inr version
     | None => inl InvalidVersion
     end, w ++ [["-V"]]).
Proof.
  intros Hout Hpre Hne Hv Hrest. unfold _get_version, call_helper.
  rewrite Hout, search_version_skip, search_version_here by done.
  by destruct (StrictVersion v).
Qed.

Lemma is_digit_not_dot c : is_digit c = true → Ascii.eqb c "."%char = false.
Proof.
  intros H. destruct (Ascii.eqb_spec c "."%char) as [->|]; [|done].
  discriminate H.
Qed.

Lemma digits_version_chars d :
  forallb is_digit (list_ascii_of_string d) = true →
  forallb is_version_char (list_ascii_of_string d) = true.
Proof.
  induction d as [|c d IH]; [done|]. simpl. intros H.
  apply andb_true_iff in H as [Hc Hd]. rewrite (IH Hd).
  unfold is_version_char. by rewrite Hc.
Qed.

Lemma list_ascii_of_string_append s1 s2 :
  list_ascii_of_string (s1 ++ s2)%string
  = list_ascii_of_string s1 ++ list_ascii_of_string s2.
Proof.
  induction s1 as [|c s1 IH]; [done|].
  rewrite append_String. simpl. by rewrite IH.
Qed.

Lemma nonempty_append s1 s2 :
  nonempty s1 = true → nonempty (s1 ++ s2)%string = true.
Proof. by destruct s1. Qed.

Lemma split_dot_digits d :
  forallb is_digit (list_ascii_of_string d) = true → split_dot d = [d].
Proof.
  induction d as [|c d IH]; [done|]. simpl. intros H.
  apply andb_true_iff in H as [Hc Hd].
  by rewrite (is_digit_not_dot c Hc), IH.
Qed.

Lemma split_dot_append d s :
  forallb is_digit (list_ascii_of_string d) = true →
  split_dot (d ++ String "."%char s)%string = d :: split_dot s.
Proof.
  induction d as [|c d IH]; [done|]. intros H.
  cbn [list_ascii_of_string forallb] in H.
  apply andb_true_iff in H as [Hc Hd].
  rewrite append_String. cbn [split_dot].
  by rewrite (is_digit_not_dot c Hc), IH.
Qed.

(** X28: reading a well-formed version.  When the output of
    [vmdktool -V] is a text without the letter v, then
    "vmdktool version ", then two numbers separated by a dot, not
    followed by a digit or a dot, [_get_version] returns these two
    numbers and 0; with a third number after a second dot it returns
    the three.  The tool is run once, with [-V]. *)
Theorem get_version_well_formed helper_output pre major minor rest w :
  has_char "v"%char pre = false →
  nonempty major = true → nonempty minor = true →
  forallb is_digit (list_ascii_of_string major) = true →
  forallb is_digit (list_ascii_of_string minor) = true →
  take_chars is_version_char rest = EmptyString →
  (helper_output ["-V"]
     = Some (pre ++ "vmdktool version " ++
             (major ++ String "."%char minor) ++ rest)%string →
   _get_version helper_output w
   = (inr (int major, int minor, 0), w ++ [["-V"]])) ∧
  (∀ patch,
     nonempty patch = true →
     forallb is_digit (list_ascii_of_string patch) = true →
     helper_output ["-V"]
       = Some (pre ++ "vmdktool version " ++
               (major ++ String "."%char (minor ++ String "."%char patch))
               ++ rest)%string →
     _get_version helper_output w
     = (inr (int major, int minor, int patch), w ++ [["-V"]])).
Proof.
  intros Hpre Hmaj Hmin Hdmaj Hdmin Hrest. split.
  - intros Hout.
    rewrite (get_version_reads helper_output pre _ rest w Hout);
      try done.
    + unfold StrictVersion.
      rewrite split_dot_append, split_dot_digits by done.
      by rewrite Hmaj, Hmin.
    + by apply nonempty_append.
    + rewrite list_ascii_of_string_append, forallb_app.
      rewrite (digits_version_chars major) by done. simpl.
      by rewrite (digits_version_chars minor).
  - intros patch Hpat Hdpat Hout.
    rewrite (get_version_reads helper_output pre _ rest w Hout);
      try done.
    + unfold StrictVersion.
      rewrite !split_dot_append, split_dot_digits by done.
      by rewrite Hmaj, Hmin, Hpat.
    + by apply nonempty_append.
    + rewrite list_ascii_of_string_append, forallb_app.
      rewrite (digits_version_chars major) by done. simpl.
      rewrite list_ascii_of_string_append, forallb_app.
      rewrite (digits_version_chars minor) by done. simpl.
      by rewrite (digits_version_chars patch).
Qed.

Lemma get_version_well_formed_witness :
  _get_version (fun _ => Some "vmdktool version 1.4") []
  = (inr (1, 4, 0), [["-V"]]).
Proof.
  apply (proj1 (get_version_well_formed
                  (fun _ => Some "vmdktool version 1.4") "" "1" "4" "" []
                  eq_refl eq_refl eq_refl eq_refl eq_refl eq_refl)).
  reflexivity.
Defined.

(** X29: reading a malformed version.  A single number after
    "vmdktool version ", or two numbers with a dot after the second
    (as at the end of a sentence), is taken whole by the pattern and
    refused by [StrictVersion]: [_get_version] raises its
    [ValueError]. *)
Theorem get_version_malformed helper_output pre major minor rest w :
  has_char "v"%char pre = false →
  nonempty major = true → nonempty minor = true →
  forallb is_digit (list_ascii_of_string major) = true →
  forallb is_digit (list_ascii_of_string minor) = true →
  take_chars is_version_char rest = EmptyString →
  (helper_output ["-V"]
     = Some (pre ++ "vmdktool version " ++ major ++ rest)%string →
   _get_version helper_output w = (inl InvalidVersion, w ++ [["-V"]])) ∧
  (helper_output ["-V"]
     = Some (pre ++ "vmdktool version " ++
             (major ++ String "."%char (minor ++ ".")) ++ rest)%string →
   _get_version helper_output w = (inl InvalidVersion, w ++ [["-V"]])).
Proof.
  intros Hpre Hmaj Hmin Hdmaj Hdmin Hrest. split.
  - intros Hout.
    rewrite (get_version_reads helper_output pre _ rest w Hout);
      try done.
    + unfold StrictVersion. by rewrite split_dot_digits.
    + by apply digits_version_chars.
  - intros Hout.
    rewrite (get_version_reads helper_output pre _ rest w Hout);
      try done.
    + unfold StrictVersion. rewrite !split_dot_append by done. simpl.
      by rewrite andb_false_r.
    + by apply nonempty_append.
    + rewrite list_ascii_of_string_append, forallb_app.
      rewrite (digits_version_chars major) by done. simpl.
      rewrite list_ascii_of_string_append, forallb_app.
      by rewrite (digits_version_chars minor).
Qed.

Lemma get_version_malformed_witness :
  _get_version (fun _ => Some "This is vmdktool version 1.4. ") []
  = (inl InvalidVersion, [["-V"]]).
Proof.
  apply (proj2 (get_version_malformed
                  (fun _ => Some "This is vmdktool version 1.4. ")
                  "This is " "1" "4" " " []
                  eq_refl eq_refl eq_refl eq_refl eq_refl eq_refl)).
  reflexivity.
Defined.

(** ** Sequences of insertions: the children outside the ordering *)

Lemma add_child_unordered_filter ordering c known_namespaces s :
  ∃ i s',
    add_child c (Some ordering) known_namespaces s = (inr i, s') ∧
    filter (fun x => ordering_index ordering x = None)
           (children (st_parent s'))
    = filter (fun x => ordering_index ordering x = None)
             (children (st_parent s) ++ [c]).
Proof.
  destruct (ordering_index ordering c) as [n|] eqn:Hc.
  - destruct (add_child_inserts c (Some ordering) known_namespaces s)
      as (i & w & Hi & Hadd).
    eexists _, _. split; [exact Hadd|]. simpl.
    rewrite !filter_app, filter_cons_False by (by rewrite Hc).
    rewrite (filter_cons_False _ c []) by (by rewrite Hc).
    rewrite filter_nil, app_nil_r, <- filter_app. by rewrite take_drop.
  - eexists _, _. split.
    + apply add_child_append. change (olist (Some ordering)) with ordering.
      apply andb_false_iff. right.
      destruct (mem (tag c) ordering) eqn:E; [|done].
      apply mem_elem_of in E. by apply index_None in Hc.
    + done.
Qed.

Lemma add_children_unordered_filter ordering inserts s :
  ∃ s',
    add_children inserts (Some ordering) s = (inr tt, s') ∧
    filter (fun x => ordering_index ordering x = None)
           (children (st_parent s'))
    = filter (fun x => ordering_index ordering x = None)
             (children (st_parent s) ++ inserts.*1).
Proof.
  revert s. induction inserts as [|[c kn] inserts IH]; intros s.
  - exists s. simpl. by rewrite app_nil_r.
  - destruct (add_child_unordered_filter ordering c kn s)
      as (i & s1 & Hadd & Hf1).
    destruct (IH s1) as (s' & Hrest & Hf).
    exists s'. split.
    + simpl. unfold bind. by rewrite Hadd.
    + rewrite Hf, fmap_cons.
      change ((c, kn).1 :: inserts.*1) with ([c] ++ inserts.*1).
      by rewrite app_assoc, !(filter_app _ _ inserts.*1), Hf1.
Qed.

Lemma sorted_unordered_last ordering cs :
  StronglySorted le (List.map (sort_key ordering) cs) →
  cs = filter (fun x => is_Some (ordering_index ordering x)) cs ++
       filter (fun x => ordering_index ordering x = None) cs.
Proof.
  induction cs as [|c cs IH]; [done|]. cbn [List.map].
  intros H. apply StronglySorted_inv in H as [Hs Hc].
  destruct (ordering_index ordering c) as [k|] eqn:E.
  - rewrite filter_cons_True by (by rewrite E).
    rewrite (filter_cons_False _ c) by (by rewrite E).
    rewrite <- app_comm_cons. f_equal. by apply IH.
  - rewrite filter_cons_False by (rewrite E; by intros [? ?]).
    rewrite (filter_cons_True _ c) by done.
    assert (Hall : Forall (fun x => ordering_index ordering x = None) cs).
    { rewrite List.Forall_forall in *. intros x Hx.
      specialize (Hc (sort_key ordering x) (in_map _ _ _ Hx)).
      unfold sort_key in Hc. rewrite E in Hc. simpl in Hc.
      destruct (ordering_index ordering x) as [k|] eqn:Ex; [|done].
      simpl in Hc. unfold ordering_index in Ex.
      apply index_lt_length in Ex. lia. }
    clear -Hall. 
    assert (filter (fun x => is_Some (ordering_index ordering x)) cs = [])
      as ->.
    { induction Hall as [|x cs Hx _ IH]; [done|].
      rewrite filter_cons_False; [done|]. rewrite Hx. by intros [? ?]. }
    simpl. f_equal.
    induction Hall as [|x cs Hx _ IH]; [done|].
    rewrite filter_cons_True by done. by f_equal.
Qed.

(** X30: custom elements trail.  Starting from a parent without
    children, after any sequence of calls of [add_child] with one
    ordering, the children whose tags are in the ordering come first
    and those whose tags are not come after them all, in the order in
    which they were inserted. *)
Theorem add_child_sequence_custom_last ordering inserts s :
  children (st_parent s) = [] →
  ∃ s',
    add_children inserts (Some ordering) s = (inr tt, s') ∧
    children (st_parent s')
    = filter (fun c => is_Some (ordering_index ordering c))
             (children (st_parent s')) ++
      filter (fun c => ordering_index ordering c = None) inserts.*1.
Proof.
  intros Hempty.
  destruct (add_children_stable_sorted ordering [] inserts s)
    as (s' & Hrun & Hs & _).
  { rewrite Hempty. split; [constructor|]. split; done. }
  destruct (add_children_unordered_filter ordering inserts s)
    as (s'' & Hrun' & Hf).
  rewrite Hrun in Hrun'. injection Hrun' as <-.
  exists s'. split; [done|].
  rewrite Hempty in Hf. simpl in Hf. rewrite <- Hf.
  by apply sorted_unordered_last.
Qed.

Lemma add_child_sequence_custom_last_witness :
  ∃ s',
    add_children
      [(new_Element "Custom1", None); (new_Element "DiskSection", None);
       (new_Element "Custom2", None); (new_Element "Info", None)]
      (Some ["Info"; "References"; "DiskSection"])
      (mkStore (new_Element "Envelope") [])
    = (inr tt, s') ∧
    List.map tag (children (st_parent s'))
    = ["Info"; "DiskSection"; "Custom1"; "Custom2"].
Proof.
  destruct (add_child_sequence_custom_last
              ["Info"; "References"; "DiskSection"]
              [(new_Element "Custom1", None); (new_Element "DiskSection", None);
               (new_Element "Custom2", None); (new_Element "Info", None)]
              (mkStore (new_Element "Envelope") []))
    as (s' & Hrun & _).
  - reflexivity.
  - exists s'. split; [exact Hrun|].
    apply (f_equal (fun r => List.map tag (children (st_parent (snd r)))))
      in Hrun.
    symmetry. exact Hrun.
Defined.
